(** * relay_messages.go: extraction of relay messages and the summary cache

    A shallow embedding of [src/relay_messages.go] (package main of
    go_relaymsg_stash): [ProcessRequests], [ParseEvent], [StoreEvent] and
    the closure returned by [SummaryHandler], together with the parts of
    the libraries they call (regexp, encoding/json, database/sql,
    go-cache, net/http) that the statements below depend on.

    Conventions.
    - A Go [string] or [[]byte] is a [string] (a list of bytes), so
      [String.length] is Go's [len].
    - A Go [error] is an [option]: [None] is [nil].
    - The process state the code reads and writes (the database behind
      [p.Dbh], the cache captured by the handler, the clock and the log)
      is the record [World], threaded through a state monad. *)

From Stdlib Require Import ZArith Ascii String Lia.
From stdpp Require Import gmap strings list fin_maps pretty sorting.

Open Scope Z_scope.

(** ** Regular expressions (the fragment of Go's [regexp] the source uses) *)

Module Regexp.

(** Syntax tree of a compiled pattern. [Space] is the Perl class [\s],
    which RE2 defines as [[\t\n\f\r ]]. [Void] and [Alt] only arise as
    derivatives. *)
Inductive regexp : Type :=
| Void
| Eps
| Lit (c : ascii)
| Space
| Cat (r1 r2 : regexp)
| Alt (r1 r2 : regexp)
| Star (r : regexp).

Definition perl_space (c : ascii) : bool :=
  match nat_of_ascii c with
  | 9%nat | 10%nat | 12%nat | 13%nat | 32%nat => true
  | _ => false
  end.

(** The words a pattern matches. *)
Inductive matches : regexp → string → Prop :=
| m_eps : matches Eps ""
| m_lit c : matches (Lit c) (String c "")
| m_space c : perl_space c = true → matches Space (String c "")
| m_cat r1 r2 s1 s2 :
    matches r1 s1 → matches r2 s2 → matches (Cat r1 r2) (s1 +:+ s2)
| m_alt_l r1 r2 s : matches r1 s → matches (Alt r1 r2) s
| m_alt_r r1 r2 s : matches r2 s → matches (Alt r1 r2) s
| m_star_nil r : matches (Star r) ""
| m_star_cons r s1 s2 :
    matches r s1 → matches (Star r) s2 → matches (Star r) (s1 +:+ s2).

Fixpoint nullable (r : regexp) : bool :=
  match r with
  | Void | Lit _ | Space => false
  | Eps | Star _ => true
  | Cat r1 r2 => nullable r1 && nullable r2
  | Alt r1 r2 => nullable r1 || nullable r2
  end.

Fixpoint deriv (c : ascii) (r : regexp) : regexp :=
  match r with
  | Void | Eps => Void
  | Lit c' => if Ascii.eqb c c' then Eps else Void
  | Space => if perl_space c then Eps else Void
  | Cat r1 r2 =>
      if nullable r1 then Alt (Cat (deriv c r1) r2) (deriv c r2)
      else Cat (deriv c r1) r2
  | Alt r1 r2 => Alt (deriv c r1) (deriv c r2)
  | Star r1 => Cat (deriv c r1) (Star r1)
  end.

(** Length of the shortest prefix of [s] that [r] matches, if any. *)
Fixpoint match_prefix (r : regexp) (s : string) : option nat :=
  if nullable r then Some 0%nat
  else match s with
       | EmptyString => None
       | String c s' => S <$> match_prefix (deriv c r) s'
       end.

(** A pattern that starts with [^]: a match can only begin at offset 0.
    [FindStringIndex] returns a two-element slice [[start, end]] or nil.
    The source looks at the length of the slice and at [start] only. *)
Definition FindStringIndex (anchored : regexp) (s : string) : list Z :=
  match match_prefix anchored s with
  | Some n => [0; Z.of_nat n]
  | None => []
  end.

(** [lit_string "abc"] is the pattern [abc]. *)
Fixpoint lit_string (s : string) : regexp :=
  match s with
  | EmptyString => Eps
  | String c s' => Cat (Lit c) (lit_string s')
  end.

(** Concatenation of a sequence of patterns. *)
Fixpoint cat_list (rs : list regexp) : regexp :=
  match rs with
  | [] => Eps
  | r :: rs' => Cat r (cat_list rs')
  end.

Fixpoint all_space (s : string) : bool :=
  match s with
  | EmptyString => true
  | String c s' => perl_space c && all_space s'
  end.

End Regexp.

Import Regexp.

(** The double-quote byte, and a word between double quotes. *)
Definition dquote : ascii := "034"%char.
Definition quoted (s : string) : string := String dquote (s +:+ String dquote "").

(** ** Package-level declarations *)

(** [const MaxMessageSize int = 8 * 1024] *)
Definition MaxMessageSize : Z := 8 * 1024.

(** [var relayMsg = re.MustCompile(`^\s*\{\s*"msys"\s*:\s*{\s*"relay_message"\s*:`)]
    (the leading [^] is the anchoring of [FindStringIndex] above; the
    second, unescaped brace is a literal brace in RE2). *)
Definition relayMsg : regexp :=
  cat_list
    [ Star Space; lit_string "{";
      Star Space; lit_string (quoted "msys");
      Star Space; lit_string ":";
      Star Space; lit_string "{";
      Star Space; lit_string (quoted "relay_message");
      Star Space; lit_string ":" ].

(** ** Data *)

(** [events.RelayMessage] of gosparkpost: the fields the source reads
    ([msg.Content.Email], [msg.Content.Subject], [msg.Content.Base64],
    [msg.From], [msg.To], [msg.WebhookID]). *)
Record RelayContent : Type := {
  Base64 : bool;
  Email : string;
  Subject : string;
}.

Record RelayMessage : Type := {
  Content : RelayContent;
  From : string;
  To : string;
  WebhookID : string;
}.

(** [storage.Request] of httpdump: the source reads [req.Data] only. *)
Record Request : Type := { Data : string }.

(** [type RelayMsgParser struct { Schema string; Domain string; Dbh *sql.DB }];
    what [Dbh] points to is the field [Dbh] of [World] below. *)
Record RelayMsgParser : Type := {
  Schema : string;
  Domain : string;
}.

(** [type SummaryResponse struct] *)
Record SummaryResponse : Type := {
  Subject' : string;   (* `json:"subject"` *)
  Count : Z;           (* `json:"count"` *)
}.

(** A row of the table created by [SchemaInit]:
    message_id bigserial primary key, webhook_id text, smtp_from text,
    smtp_to text, subject text, rfc822 bytea, is_base64 bool,
    created timestamptz default clock_timestamp(), status_id integer default 0. *)
Record MessageRecord : Type := {
  message_id : Z;
  webhook_id : string;
  smtp_from : string;
  smtp_to : string;
  subject : string;
  rfc822 : string;
  is_base64 : bool;
  created : Z;
  status_id : Z;
}.

(** The two errors the extraction path creates with [fmt.Errorf]. *)
Inductive error_value : Type :=
| StoreEvent_size (from : string) (size : Z)
| StoreEvent_INSERT (cause : string).

Definition Error (e : error_value) : string :=
  match e with
  | StoreEvent_size from size =>
      "StoreEvent (size): ignoring message from " +:+ from +:+ ", size " +:+ pretty size
      +:+ String "010"%char ""
  | StoreEvent_INSERT cause => "StoreEvent (INSERT): " +:+ cause
  end.

(** The failure the specification calls MessageTooLarge. *)
Definition MessageTooLarge (e : error_value) : Prop :=
  match e with StoreEvent_size _ _ => True | StoreEvent_INSERT _ => False end.

(** ** The database behind [p.Dbh] *)

(** What the driver will answer to the coming statements is part of the
    state: [exec_outcomes] for [Exec], [query_outcomes] for [Query], one
    entry per call, in order; [None], and any call beyond the end of the
    list, is a call that the database serves. *)
Inductive QueryFault : Type :=
| QueryFails (e : string)              (* Query itself returns an error *)
| ScanFails (k : nat) (e : string)     (* Scan of the row of index k fails *)
| NextFails (k : nat) (e : string).    (* Next stops after k rows, rows.Err() is e *)

Inductive Statement : Type :=
| INSERT (schema : string)
| SELECT (schema : string) (localpart domain : string).

Record DB : Type := {
  relay_messages : list MessageRecord;
  next_message_id : Z;
  exec_outcomes : list (option string);
  query_outcomes : list (option QueryFault);
  statements : list Statement;       (* every statement received, oldest first *)
}.

(** A row as [Scan] delivers it, and the cursor [*sql.Rows]. *)
Inductive ScanResult : Type :=
| ScanOk (subject : string) (count : Z)
| ScanErr (e : string).

Record Rows : Type := {
  to_scan : list ScanResult;
  Err : option string;               (* rows.Err() once Next has returned false *)
}.

(** INSERT INTO schema.relay_messages (webhook_id, smtp_from, smtp_to,
    subject, rfc822, is_base64) VALUES ($1, ..., $6): the other columns
    take their defaults. [clock] is the database clock. *)
Definition db_Exec_INSERT (clock : Z) (schema : string)
    (a1 a2 a3 a4 a5 : string) (a6 : bool) (d : DB) : option string * DB :=
  let seen := statements d ++ [INSERT schema] in
  match exec_outcomes d with
  | Some e :: rest =>
      (Some e,
       {| relay_messages := relay_messages d;
          next_message_id := next_message_id d;
          exec_outcomes := rest;
          query_outcomes := query_outcomes d;
          statements := seen |})
  | outcomes =>
      (None,
       {| relay_messages :=
            relay_messages d ++
              [ {| message_id := next_message_id d;
                   webhook_id := a1; smtp_from := a2; smtp_to := a3;
                   subject := a4; rfc822 := a5; is_base64 := a6;
                   created := clock; status_id := 0 |} ];
          next_message_id := next_message_id d + 1;
          exec_outcomes := tail outcomes;
          query_outcomes := query_outcomes d;
          statements := seen |})
  end.

(** SELECT subject, count(distinct(smtp_from)) FROM schema.relay_messages
    WHERE smtp_to = $1 ||'@'|| $2 GROUP BY 1.
    SQL leaves the order of the groups open; here a subject stands where
    its last row stands. *)
Definition summary_rows (localpart domain : string)
    (table : list MessageRecord) : list (string * Z) :=
  let hits := filter (λ r, smtp_to r = localpart +:+ "@" +:+ domain) table in
  (λ s, (s, Z.of_nat (length (remove_dups
                (smtp_from <$> filter (λ r, subject r = s) hits)))))
    <$> remove_dups (subject <$> hits).

Definition cursor (fault : option QueryFault) (result : list (string * Z)) : Rows :=
  let ok := (λ '(s, n), ScanOk s n) <$> result in
  match fault with
  | Some (ScanFails k e) => {| to_scan := <[k := ScanErr e]> ok; Err := None |}
  | Some (NextFails k e) => {| to_scan := take k ok; Err := Some e |}
  | _ => {| to_scan := ok; Err := None |}
  end.

Definition db_Query_SELECT (schema localpart domain : string) (d : DB)
    : (Rows + string) * DB :=
  let d' := {| relay_messages := relay_messages d;
               next_message_id := next_message_id d;
               exec_outcomes := exec_outcomes d;
               query_outcomes := tail (query_outcomes d);
               statements := statements d ++ [SELECT schema localpart domain] |} in
  match head (query_outcomes d) with
  | Some (Some (QueryFails e)) => (inr e, d')
  | Some fault => (inl (cursor fault (summary_rows localpart domain (relay_messages d))), d')
  | None => (inl (cursor None (summary_rows localpart domain (relay_messages d))), d')
  end.

(** ** The cache of github.com/patrickmn/go-cache *)

Module GoCache.

(** Durations and instants are nanoseconds, as in package time. *)
Definition Millisecond : Z := 1000000.
Definition Second : Z := 1000 * Millisecond.

Definition NoExpiration : Z := -1.
Definition DefaultExpiration : Z := 0.

Record Item : Type := {
  Object : string;
  Expiration : Z;
}.

Record Cache : Type := {
  defaultExpiration : Z;
  cleanupInterval : Z;
  items : gmap string Item;
}.

(** [cache.New(de, ci)]: a default expiration of 0 means no expiration. *)
Definition New (de ci : Z) : Cache :=
  {| defaultExpiration := if decide (de = 0) then NoExpiration else de;
     cleanupInterval := ci;
     items := ∅ |}.

(** [c.Set(k, x, d)] at instant [now]. *)
Definition Set_ (now : Z) (k : string) (x : string) (d : Z) (c : Cache) : Cache :=
  let d := if decide (d = DefaultExpiration) then defaultExpiration c else d in
  let e := if decide (0 < d) then now + d else 0 in
  {| defaultExpiration := defaultExpiration c;
     cleanupInterval := cleanupInterval c;
     items := <[k := {| Object := x; Expiration := e |}]> (items c) |}.

Definition expired (now : Z) (it : Item) : Prop :=
  0 < Expiration it ∧ Expiration it < now.

#[global] Instance expired_dec now it : Decision (expired now it).
Proof. unfold expired. apply _. Defined.

(** [c.Get(k)] at instant [now]: the object and [found]. *)
Definition Get (now : Z) (k : string) (c : Cache) : option string :=
  match items c !! k with
  | None => None
  | Some it => if decide (expired now it) then None else Some (Object it)
  end.

(** [c.DeleteExpired()], which the janitor runs every [cleanupInterval]. *)
Definition DeleteExpired (now : Z) (c : Cache) : Cache :=
  {| defaultExpiration := defaultExpiration c;
     cleanupInterval := cleanupInterval c;
     items := filter (λ kv, ¬ expired now kv.2) (items c) |}.

End GoCache.

Import GoCache.

(** ** The state of the process, and the monad that threads it *)

Record World : Type := {
  Dbh : DB;                  (* the database [p.Dbh] points to *)
  cache : Cache;             (* the cache [c] the handler closes over *)
  clock : Z;                 (* what time.Now() and the database clock read *)
  logged : list string;      (* the messages given to log.Printf, oldest first *)
}.

Definition M (A : Type) : Type := World → A * World.

#[global] Instance M_ret : MRet M := λ A a w, (a, w).
#[global] Instance M_bind : MBind M := λ A B f m w, let '(a, w') := m w in f a w'.

Definition log_Printf (line : string) : M unit := λ w,
  (tt, {| Dbh := Dbh w; cache := cache w; clock := clock w;
          logged := logged w ++ [line] |}).

Definition with_Dbh {A : Type} (f : Z → DB → A * DB) : M A := λ w,
  let '(a, d) := f (clock w) (Dbh w) in
  (a, {| Dbh := d; cache := cache w; clock := clock w; logged := logged w |}).

Definition c_Get (k : string) : M (option string) := λ w,
  (Get (clock w) k (cache w), w).

Definition c_Set (k x : string) (d : Z) : M unit := λ w,
  (tt, {| Dbh := Dbh w; cache := Set_ (clock w) k x d (cache w);
          clock := clock w; logged := logged w |}).

(** What the environment does between two calls: time passes, and the
    janitor of the cache sweeps. *)
Definition elapse (d : Z) (w : World) : World :=
  {| Dbh := Dbh w; cache := cache w; clock := clock w + d; logged := logged w |}.

Definition janitor (w : World) : World :=
  {| Dbh := Dbh w; cache := DeleteExpired (clock w) (cache w);
     clock := clock w; logged := logged w |}.

Definition newline : string := String "010"%char "".

(** ** net/http: what the handler writes *)

Definition StatusOK : Z := 200.
Definition StatusInternalServerError : Z := 500.

Record Response : Type := {
  Code : Z;
  Body : string;
}.

(** [w.Write(b)] as the first write: the status is 200. *)
Definition Write (b : string) : Response := {| Code := StatusOK; Body := b |}.

(** [http.Error(w, msg, code)] writes the message and a line feed. *)
Definition http_Error (msg : string) (code : Z) : Response :=
  {| Code := code; Body := msg +:+ newline |}.

(** ** encoding/json: [json.Marshal] of a [map[string][]SummaryResponse] *)

Module Marshal.

Definition hex (n : N) : ascii :=
  ascii_of_N (if (n <? 10)%N then 48 + n else 87 + n)%N.

Definition backslash : string := String "092"%char "".

(** A byte below 0x80 inside a JSON string. [Marshal] escapes the quote,
    the backslash, control bytes and, for HTML safety, [<], [>] and [&]
    (backspace and form feed have their short escapes since Go 1.22). *)
Definition escape (c : ascii) : string :=
  let n := N_of_ascii c in
  if (n =? 34)%N || (n =? 92)%N then backslash +:+ String c ""
  else if (n =? 8)%N then backslash +:+ "b"
  else if (n =? 12)%N then backslash +:+ "f"
  else if (n =? 10)%N then backslash +:+ "n"
  else if (n =? 13)%N then backslash +:+ "r"
  else if (n =? 9)%N then backslash +:+ "t"
  else if (n <? 32)%N || (n =? 60)%N || (n =? 62)%N || (n =? 38)%N
    then backslash +:+ "u00" +:+ String (hex (n / 16)) (String (hex (n mod 16)) "")
  else String c "".

(** The bytes of a string that is valid UTF-8 (what [Unmarshal] and a
    UTF-8 database deliver): a multi-byte sequence is copied, except
    U+2028 and U+2029, bytes E2 80 A8 and E2 80 A9. *)
Fixpoint string_bytes (s : string) : string :=
  match s with
  | EmptyString => ""
  | String c rest =>
      match N_of_ascii c, rest with
      | 226%N, String c1 (String c2 rest') =>
          if (N_of_ascii c1 =? 128)%N && ((N_of_ascii c2 =? 168)%N || (N_of_ascii c2 =? 169)%N)
          then backslash +:+ "u202" +:+ String (hex (N_of_ascii c2 - 160)) (string_bytes rest')
          else String c (string_bytes rest)
      | n, _ =>
          if (n <? 128)%N then escape c +:+ string_bytes rest
          else String c (string_bytes rest)
      end
  end.

Definition string_ (s : string) : string := quoted (string_bytes s).

Definition int (n : Z) : string := pretty n.

Fixpoint join (sep : string) (l : list string) : string :=
  match l with
  | [] => ""
  | [x] => x
  | x :: l' => x +:+ sep +:+ join sep l'
  end.

(** A struct: its fields in order of declaration, under their tags. *)
Definition SummaryResponse_ (s : SummaryResponse) : string :=
  "{" +:+ quoted "subject" +:+ ":" +:+ string_ (Subject' s) +:+ ","
      +:+ quoted "count" +:+ ":" +:+ int (Count s) +:+ "}".

(** A slice: a nil slice is [null]. The only slices the handler builds
    come out of [append], so an empty list here is the nil slice. *)
Definition slice (l : list SummaryResponse) : string :=
  match l with
  | [] => "null"
  | _ => "[" +:+ join "," (SummaryResponse_ <$> l) +:+ "]"
  end.

Definition key_le (a b : string * list SummaryResponse) : Prop :=
  String.leb a.1 b.1.

(** A map: an object whose keys are sorted. *)
Definition map_ (m : gmap string (list SummaryResponse)) : string :=
  "{" +:+ join "," ((λ kv, string_ kv.1 +:+ ":" +:+ slice kv.2)
                      <$> merge_sort key_le (map_to_list m)) +:+ "}".

(** [json.Marshal(res)]: no value of this type makes it fail. *)
Definition Marshal (res : gmap string (list SummaryResponse)) : string + string :=
  inl (map_ res).

End Marshal.

(** ** encoding/json: the two calls of [json.Unmarshal] *)

(** The source decodes twice, each time into a variable of a fixed type.
    What the decoder answers is an interface here; [Reference.decoder]
    below is an instance that runs.
    - [Unmarshal_events data]: [json.Unmarshal([]byte(data), &events)] with
      [events []*json.RawMessage]. [None] is an error; in the list, [None]
      is a nil pointer and [Some j] points to the text [j] of an element.
    - [Unmarshal_blob j]: [json.Unmarshal([]byte(j), &blob)] with
      [blob map[string]map[string]events.RelayMessage]. [None] is an
      error. *)
Class Unmarshal : Type := {
  Unmarshal_events : string → option (list (option string));
  Unmarshal_blob : string → option (gmap string (gmap string RelayMessage));
}.

(** ** The extraction path *)

Section Extraction.

Context `{Unmarshal}.

Definition StoreEvent (p : RelayMsgParser) (msg : RelayMessage) : M (option error_value) :=
  if decide (MaxMessageSize ≤ Z.of_nat (String.length (Email (Content msg)))) then
    mret (Some (StoreEvent_size (From msg) (Z.of_nat (String.length (Email (Content msg))))))
  else
    err ← with_Dbh (λ clock,
             db_Exec_INSERT clock (Schema p)
               (WebhookID msg) (From msg) (To msg)
               (Subject (Content msg)) (Email (Content msg)) (Base64 (Content msg)));
    match err with
    | Some err => mret (Some (StoreEvent_INSERT err))
    | None => mret None
    end.

Definition ParseEvent (p : RelayMsgParser) (j : option string) : M (option error_value) :=
  match j with
  | None => mret None
  | Some j =>
      let idx := FindStringIndex relayMsg j in
      if decide (length idx = 0%nat ∨ idx !!! 0%nat < 0) then
        log_Printf ("ParseEvent ignored event: " +:+ j +:+ newline);;
        mret None
      else
        match Unmarshal_blob j with
        | None =>
            log_Printf ("ParseEvent failed to parse JSON:" +:+ newline +:+ j +:+ newline);;
            mret None
        | Some blob =>
            match blob !! "msys" with
            | None =>
                log_Printf ("ParseEvent ignored event with no " +:+ quoted "msys"
                            +:+ " key: " +:+ j +:+ newline);;
                mret None
            | Some msys =>
                match msys !! "relay_message" with
                | None =>
                    log_Printf ("ParseEvent ignored event with no " +:+ quoted "relay_message"
                                +:+ " key: " +:+ j +:+ newline);;
                    mret None
                | Some msg =>
                    log_Printf (From msg +:+ " => " +:+ To msg +:+ " ("
                                +:+ WebhookID msg +:+ ")" +:+ newline);;
                    err ← StoreEvent p msg;
                    match err with
                    | Some err => mret (Some err)
                    | None => mret None
                    end
                end
            end
        end
  end.

(** [for _, event := range events]: the first error leaves the function. *)
Fixpoint range_events (p : RelayMsgParser) (events : list (option string))
    : M (option error_value) :=
  match events with
  | [] => mret None
  | event :: events' =>
      err ← ParseEvent p event;
      match err with
      | Some err => mret (Some err)
      | None => range_events p events'
      end
  end.

(** [for i, req := range reqs], entered at index [i]. *)
Fixpoint range_reqs (p : RelayMsgParser) (i : nat) (reqs : list Request)
    : M (option error_value) :=
  match reqs with
  | [] => mret None
  | req :: reqs' =>
      match Unmarshal_events (Data req) with
      | None =>
          log_Printf ("ProcessRequests failed to parse JSON:" +:+ newline
                      +:+ Data req +:+ newline);;
          range_reqs p (S i) reqs'
      | Some events =>
          log_Printf ("ProcessRequests found " +:+ pretty (length events)
                      +:+ " events from request " +:+ pretty i +:+ newline);;
          err ← range_events p events;
          match err with
          | Some err => mret (Some err)
          | None => range_reqs p (S i) reqs'
          end
      end
  end.

Definition ProcessRequests (p : RelayMsgParser) (reqs : list Request)
    : M (option error_value) :=
  log_Printf ("ProcessRequests called with " +:+ pretty (length reqs)
              +:+ " requests" +:+ newline);;
  range_reqs p 0 reqs.

End Extraction.

(** ** The summary handler *)

(** [for rows.Next() { ... rows.Scan(&s.Subject, &s.Count) ...
    res["results"] = append(res["results"], s) }]: the map after the
    loop, or the error of the [Scan] that failed. Inside the loop
    [rows.Err()] is never [io.EOF] ([Err] turns it into nil), so that
    test of the source never leaves the loop. *)
Fixpoint scan_rows (rows : list ScanResult) (res : gmap string (list SummaryResponse))
    : gmap string (list SummaryResponse) + string :=
  match rows with
  | [] => inl res
  | ScanErr e :: _ => inr e
  | ScanOk subject count :: rows' =>
      let s := {| Subject' := subject; Count := count |} in
      scan_rows rows' (<["results" := default [] (res !! "results") ++ [s]]> res)
  end.

(** The cache the handler is created with:
    [c := cache.New(1*time.Second, 500*time.Millisecond)]. *)
Definition SummaryHandler_c : Cache := New (1 * Second) (500 * Millisecond).

(** The function [SummaryHandler] returns, called for a request whose
    path parameter is [localpart]. *)
Definition SummaryHandler (p : RelayMsgParser) (localpart : string) : M Response :=
  jsonUntyped ← c_Get localpart;
  match jsonUntyped with
  | Some jsonBytes =>
      log_Printf ("SummarizeEvents (cache): hit for [" +:+ localpart +:+ "]");;
      mret (Write jsonBytes)
  | None =>
      rows ← with_Dbh (λ _, db_Query_SELECT (Schema p) localpart (Domain p));
      match rows with
      | inr err =>
          log_Printf ("SummarizeEvents (SELECT): " +:+ err);;
          mret (http_Error "Database error" StatusInternalServerError)
      | inl rows =>
          match scan_rows (to_scan rows) ∅ with
          | inr err =>
              log_Printf ("SummarizeEvents (Scan): " +:+ err);;
              mret (http_Error "Database error" StatusInternalServerError)
          | inl res =>
              match Err rows with
              | Some err =>
                  log_Printf ("SummarizeEvents (Err): " +:+ err);;
                  mret (http_Error "Database error" StatusInternalServerError)
              | None =>
                  match Marshal.Marshal res with
                  | inr err =>
                      log_Printf ("SummarizeEvents (JSON): " +:+ err);;
                      mret (http_Error "Encoding error" StatusInternalServerError)
                  | inl jsonBytes =>
                      c_Set localpart jsonBytes DefaultExpiration;;
                      mret (Write jsonBytes)
                  end
              end
          end
      end
  end.

(** ** A decoder that runs *)

(** An instance of [Unmarshal] for the worked examples: a parser of JSON
    texts and the two decodings built on it, after encoding/json. The
    declaration of [events.RelayMessage] is in gosparkpost, so the names
    of its JSON keys are a parameter, [Tags]. Keys of an event that are
    none of these are skipped, as [Unmarshal] skips unknown fields. *)
Module Reference.

#[local] Unset Elimination Schemes.

Inductive json : Type :=
| JNull
| JBool (b : bool)
| JNumber (text : string)
| JString (s : string)
| JArray (elements : list json)
| JObject (members : list (string * json)).

#[local] Set Elimination Schemes.

Definition byte (c : ascii) : N := N_of_ascii c.

Definition is_ws (c : ascii) : bool :=
  (byte c =? 32)%N || (byte c =? 9)%N || (byte c =? 10)%N || (byte c =? 13)%N.

Fixpoint skip_ws (s : string) : string :=
  match s with
  | String c r => if is_ws c then skip_ws r else s
  | EmptyString => s
  end.

(** The text [s] without its suffix [rest]. *)
Definition span (s rest : string) : string :=
  substring 0 (String.length s - String.length rest) s.

Definition is_digit (c : ascii) : bool := (48 <=? byte c)%N && (byte c <=? 57)%N.

Definition hex_value (c : ascii) : option N :=
  let n := byte c in
  if (48 <=? n)%N && (n <=? 57)%N then Some (n - 48)%N
  else if (97 <=? n)%N && (n <=? 102)%N then Some (n - 87)%N
  else if (65 <=? n)%N && (n <=? 70)%N then Some (n - 55)%N
  else None.

(** Four hexadecimal digits, as after a backslash and [u]. *)
Definition getu4 (s : string) : option (N * string) :=
  match s with
  | String a (String b (String c (String d r))) =>
      a ← hex_value a; b ← hex_value b; c ← hex_value c; d ← hex_value d;
      Some (a * 4096 + b * 256 + c * 16 + d, r)%N
  | _ => None
  end.

Definition utf8 (cp : N) : string :=
  let b (n : N) := ascii_of_N n in
  (if cp <? 128 then String (b cp) ""
   else if cp <? 2048 then
     String (b (192 + cp / 64)) (String (b (128 + cp mod 64)) "")
   else if cp <? 65536 then
     String (b (224 + cp / 4096))
       (String (b (128 + (cp / 64) mod 64)) (String (b (128 + cp mod 64)) ""))
   else
     String (b (240 + cp / 262144))
       (String (b (128 + (cp / 4096) mod 64))
          (String (b (128 + (cp / 64) mod 64)) (String (b (128 + cp mod 64)) ""))))%N.

Definition is_surrogate (cp : N) : bool := (55296 <=? cp)%N && (cp <? 57344)%N.

(** A code unit [u] read from an escape, followed by [r]: the bytes it
    stands for, alone or with the low surrogate that follows. *)
Definition escaped_rune (u : N) (r : string) : string * string :=
  if is_surrogate u then
    match r with
    | String b1 (String b2 r') =>
        match (if (byte b1 =? 92)%N && (byte b2 =? 117)%N then getu4 r' else None) with
        | Some (lo, r'') =>
            if (u <? 56320)%N && (56320 <=? lo)%N && (lo <? 57344)%N
            then (utf8 (65536 + (u - 55296) * 1024 + (lo - 56320))%N, r'')
            else (utf8 65533, r)
        | None => (utf8 65533, r)
        end
    | _ => (utf8 65533, r)
    end
  else (utf8 u, r).

(** A string literal after its opening quote: its value and what follows
    the closing quote. *)
Fixpoint string_tail (fuel : nat) (s : string) : option (string * string) :=
  match fuel, s with
  | S fuel, String c r =>
      if (byte c =? 34)%N then Some ("", r)
      else if (byte c =? 92)%N then
        match r with
        | String e r' =>
            let simple (b : N) :=
              '(v, rest) ← string_tail fuel r'; Some (String (ascii_of_N b) v, rest) in
            if (byte e =? 34)%N then simple 34%N
            else if (byte e =? 92)%N then simple 92%N
            else if (byte e =? 47)%N then simple 47%N
            else if (byte e =? 98)%N then simple 8%N
            else if (byte e =? 102)%N then simple 12%N
            else if (byte e =? 110)%N then simple 10%N
            else if (byte e =? 114)%N then simple 13%N
            else if (byte e =? 116)%N then simple 9%N
            else if (byte e =? 117)%N then
              '(u, r'') ← getu4 r';
              let '(bytes, r3) := escaped_rune u r'' in
              '(v, rest) ← string_tail fuel r3; Some (bytes +:+ v, rest)
            else None
        | EmptyString => None
        end
      else if (byte c <? 32)%N then None
      else '(v, rest) ← string_tail fuel r; Some (String c v, rest)
  | _, _ => None
  end.

Fixpoint digits (s : string) : string :=
  match s with
  | String c r => if is_digit c then digits r else s
  | EmptyString => s
  end.

(** One or more digits. *)
Definition digits1 (s : string) : option string :=
  match s with
  | String c r => if is_digit c then Some (digits r) else None
  | EmptyString => None
  end.

(** A number: what follows it. *)
Definition number (s : string) : option string :=
  let s := match s with String "-" r => r | _ => s end in
  r ← match s with
      | String "0" r => Some r
      | _ => digits1 s
      end;
  r ← match r with
      | String "." r' => digits1 r'
      | _ => Some r
      end;
  match r with
  | String c r' =>
      if (byte c =? 101)%N || (byte c =? 69)%N then
        match r' with
        | String "+" r'' | String "-" r'' => digits1 r''
        | _ => digits1 r'
        end
      else Some r
  | EmptyString => Some r
  end.

Definition keyword (k : string) (v : json) (s : string) : option (json * string) :=
  if String.prefix k s then Some (v, substring (String.length k) (String.length s) s) else None.

Section Sequence.
Context {A : Type} (item : string → option (A * string)) (close : ascii).

(** After an item: a comma and one more item, or the closing byte. *)
Fixpoint more (fuel : nat) (s : string) : option (list A * string) :=
  match fuel, skip_ws s with
  | S fuel, String c r =>
      if Ascii.eqb c close then Some ([], r)
      else if Ascii.eqb c "," then
        '(x, r1) ← item (skip_ws r);
        '(xs, r2) ← more fuel r1;
        Some (x :: xs, r2)
      else None
  | _, _ => None
  end.

(** After the opening byte. *)
Definition sequence (s : string) : option (list A * string) :=
  match skip_ws s with
  | String c r =>
      if Ascii.eqb c close then Some ([], r)
      else
        '(x, r1) ← item (skip_ws s);
        '(xs, r2) ← more (String.length r1) r1;
        Some (x :: xs, r2)
  | EmptyString => None
  end.
End Sequence.

(** A value at the head of [s]: the value and what follows it. *)
Fixpoint value (fuel : nat) (s : string) : option (json * string) :=
  match fuel, s with
  | S fuel, String c r =>
      if Ascii.eqb c "{" then
        let member (s : string) : option ((string * json) * string) :=
          match s with
          | String q r0 =>
              if Ascii.eqb q dquote then
                '(k, r1) ← string_tail (String.length r0) r0;
                match skip_ws r1 with
                | String ":" r2 => '(v, r3) ← value fuel (skip_ws r2); Some ((k, v), r3)
                | _ => None
                end
              else None
          | EmptyString => None
          end in
        '(ms, r') ← sequence member "}" r; Some (JObject ms, r')
      else if Ascii.eqb c "[" then
        '(vs, r') ← sequence (value fuel) "]" r; Some (JArray vs, r')
      else if Ascii.eqb c dquote then
        '(v, r') ← string_tail (String.length r) r; Some (JString v, r')
      else if Ascii.eqb c "t" then keyword "true" (JBool true) s
      else if Ascii.eqb c "f" then keyword "false" (JBool false) s
      else if Ascii.eqb c "n" then keyword "null" JNull s
      else r' ← number s; Some (JNumber (span s r'), r')
  | _, _ => None
  end.

(** A whole text: one value between optional white space. *)
Definition document (s : string) : option json :=
  '(v, r) ← value (String.length s) (skip_ws s);
  match skip_ws r with
  | EmptyString => Some v
  | _ => None
  end.

End Reference.

Module ReferenceDecode.
Import Reference.

(** The JSON keys of [events.RelayMessage]. *)
Record Tags : Type := {
  tag_content : string;
  tag_email_rfc822_is_base64 : string;
  tag_email_rfc822 : string;
  tag_subject : string;
  tag_msg_from : string;
  tag_rcpt_to : string;
  tag_webhook_id : string;
}.

(** The keys of a relay message in SparkPost's relay webhook. *)
Definition sparkpost : Tags :=
  {| tag_content := "content";
     tag_email_rfc822_is_base64 := "email_rfc822_is_base64";
     tag_email_rfc822 := "email_rfc822";
     tag_subject := "subject";
     tag_msg_from := "msg_from";
     tag_rcpt_to := "rcpt_to";
     tag_webhook_id := "webhook_id" |}.

Definition lower (c : ascii) : ascii :=
  if (65 <=? byte c)%N && (byte c <=? 90)%N then ascii_of_N (byte c + 32) else c.

Fixpoint fold (s : string) : string :=
  match s with
  | String c r => String (lower c) (fold r)
  | EmptyString => s
  end.

(** A key names a field when it is its tag, letter case apart. *)
Definition names (key tag : string) : bool := String.eqb (fold key) (fold tag).

(** A value stored into a [string] or a [bool] field: [null] leaves the
    field as it is, a value of another kind is an error. *)
Definition store_string (v : json) (old : string) : option string :=
  match v with
  | JString s => Some s
  | JNull => Some old
  | _ => None
  end.

Definition store_bool (v : json) (old : bool) : option bool :=
  match v with
  | JBool b => Some b
  | JNull => Some old
  | _ => None
  end.

Section Decode.
Context (t : Tags).

Fixpoint content_members (ms : list (string * json)) (c : RelayContent)
    : option RelayContent :=
  match ms with
  | [] => Some c
  | (k, v) :: ms' =>
      c' ← (if names k (tag_email_rfc822_is_base64 t) then
              b ← store_bool v (Base64 c);
              Some {| Base64 := b; Email := Email c; Subject := Subject c |}
            else if names k (tag_email_rfc822 t) then
              s ← store_string v (Email c);
              Some {| Base64 := Base64 c; Email := s; Subject := Subject c |}
            else if names k (tag_subject t) then
              s ← store_string v (Subject c);
              Some {| Base64 := Base64 c; Email := Email c; Subject := s |}
            else Some c);
      content_members ms' c'
  end.

Definition store_content (v : json) (old : RelayContent) : option RelayContent :=
  match v with
  | JObject ms => content_members ms old
  | JNull => Some old
  | _ => None
  end.

Fixpoint message_members (ms : list (string * json)) (m : RelayMessage)
    : option RelayMessage :=
  match ms with
  | [] => Some m
  | (k, v) :: ms' =>
      m' ← (if names k (tag_content t) then
              c ← store_content v (Content m);
              Some {| Content := c; From := From m; To := To m; WebhookID := WebhookID m |}
            else if names k (tag_msg_from t) then
              s ← store_string v (From m);
              Some {| Content := Content m; From := s; To := To m; WebhookID := WebhookID m |}
            else if names k (tag_rcpt_to t) then
              s ← store_string v (To m);
              Some {| Content := Content m; From := From m; To := s; WebhookID := WebhookID m |}
            else if names k (tag_webhook_id t) then
              s ← store_string v (WebhookID m);
              Some {| Content := Content m; From := From m; To := To m; WebhookID := s |}
            else Some m);
      message_members ms' m'
  end.

(** The zero value of [events.RelayMessage]. *)
Definition zero : RelayMessage :=
  {| Content := {| Base64 := false; Email := ""; Subject := "" |};
     From := ""; To := ""; WebhookID := "" |}.

(** An element of a map is decoded into a fresh zero value. *)
Definition message (v : json) : option RelayMessage :=
  match v with
  | JObject ms => message_members ms zero
  | JNull => Some zero
  | _ => None
  end.

Fixpoint map_members {A : Type} (elem : json → option A)
    (ms : list (string * json)) (m : gmap string A) : option (gmap string A) :=
  match ms with
  | [] => Some m
  | (k, v) :: ms' => x ← elem v; map_members elem ms' (<[k := x]> m)
  end.

(** A value decoded into a map that is nil before. *)
Definition map_of {A : Type} (elem : json → option A) (v : json)
    : option (gmap string A) :=
  match v with
  | JObject ms => map_members elem ms ∅
  | JNull => Some ∅
  | _ => None
  end.

Definition blob (j : string) : option (gmap string (gmap string RelayMessage)) :=
  v ← document j; map_of (map_of message) v.

(** An element of the array with its text. *)
Definition raw (s : string) : option (option string * string) :=
  '(v, r) ← value (String.length s) s;
  Some (match v with JNull => None | _ => Some (span s r) end, r).

Definition events (data : string) : option (list (option string)) :=
  match skip_ws data with
  | String "[" r =>
      '(es, r') ← sequence raw "]" r;
      match skip_ws r' with
      | EmptyString => Some es
      | _ => None
      end
  | _ =>
      v ← document data;
      match v with
      | JNull => Some []
      | _ => None
      end
  end.

#[export] Instance decoder : Unmarshal :=
  {| Unmarshal_events := events; Unmarshal_blob := blob |}.

End Decode.
End ReferenceDecode.

(** ** SchemaInit *)

(** [strings.Index(s, substr)]: the index of the first instance of
    [substr] in [s], or -1. [Index_from s substr i] is the same for a
    text [s] that begins at index [i] of the whole. *)
Fixpoint Index_from (s substr : string) (i : Z) : Z :=
  if String.prefix substr s then i
  else match s with
       | EmptyString => -1
       | String _ s' => Index_from s' substr (i + 1)
       end.

Definition strings_Index (s substr : string) : Z := Index_from s substr 0.

(** The statements of [ddls]: the table with its nine columns, and the
    index on (smtp_to, smtp_from). *)
Inductive DDL : Type :=
| CREATE_TABLE (schema table : string)
| CREATE_INDEX (name schema table : string).

(** The calls [SchemaInit] makes on [dbh]. *)
Inductive Call : Type :=
| SchemaExists (schema : string)
| TableExistsInSchema (table schema : string)
| Exec (ddl : DDL).

(** The catalog of the database: its schemas, and the tables and the
    indexes of each under (schema, name). [answers] holds what the server
    will answer to the coming calls, one entry per call: an error, or
    [None] for a call it serves; calls beyond the list are served.
    [calls] records the calls received, oldest first. *)
Record Catalog : Type := {
  schemata : gset string;
  tables : gset (string * string);
  indexes : gset (string * string);
  answers : list (option string);
  calls : list Call;
}.

(** The server receives a call: the error it answers with, if any. *)
Definition receive (c : Call) (cat : Catalog) : option string * Catalog :=
  (default None (head (answers cat)),
   {| schemata := schemata cat; tables := tables cat; indexes := indexes cat;
      answers := tail (answers cat); calls := calls cat ++ [c] |}).

(** [pg.SchemaExists(dbh, schema)] and [pg.TableExistsInSchema(dbh, table,
    schema)] of httpdump: the answer of the catalog, or an error. *)
Definition pg_SchemaExists (schema : string) (cat : Catalog) : (bool + string) * Catalog :=
  match receive (SchemaExists schema) cat with
  | (Some e, cat') => (inr e, cat')
  | (None, cat') => (inl (bool_decide (schema ∈ schemata cat)), cat')
  end.

Definition pg_TableExistsInSchema (table schema : string) (cat : Catalog)
    : (bool + string) * Catalog :=
  match receive (TableExistsInSchema table schema) cat with
  | (Some e, cat') => (inr e, cat')
  | (None, cat') => (inl (bool_decide ((schema, table) ∈ tables cat)), cat')
  end.

(** What a statement that the server executes does to the catalog.
    Tables and indexes of a schema share their names: CREATE TABLE fails
    when the schema is missing or the name is taken, CREATE INDEX when
    the table is missing or the name is taken. *)
Definition execute (ddl : DDL) (cat : Catalog) : option string * Catalog :=
  let taken (schema name : string) :=
    bool_decide ((schema, name) ∈ tables cat ∨ (schema, name) ∈ indexes cat) in
  match ddl with
  | CREATE_TABLE schema table =>
      if negb (bool_decide (schema ∈ schemata cat)) then (Some "schema does not exist", cat)
      else if taken schema table then (Some "relation already exists", cat)
      else (None,
            {| schemata := schemata cat; tables := {[ (schema, table) ]} ∪ tables cat;
               indexes := indexes cat; answers := answers cat; calls := calls cat |})
  | CREATE_INDEX name schema table =>
      if negb (bool_decide ((schema, table) ∈ tables cat)) then (Some "relation does not exist", cat)
      else if taken schema name then (Some "relation already exists", cat)
      else (None,
            {| schemata := schemata cat; tables := tables cat;
               indexes := {[ (schema, name) ]} ∪ indexes cat;
               answers := answers cat; calls := calls cat |})
  end.

(** [dbh.Exec(ddl)]. *)
Definition dbh_Exec (ddl : DDL) (cat : Catalog) : option string * Catalog :=
  match receive (Exec ddl) cat with
  | (Some e, cat') => (Some e, cat')
  | (None, cat') => execute ddl cat'
  end.

(** The errors [SchemaInit] returns. *)
Inductive init_error : Type :=
| space_in_schema
| from_pg (e : string)                 (* [return err] *)
| schema_missing (schema : string)
| from_ddl (e : string).

Definition init_Error (e : init_error) : string :=
  match e with
  | space_in_schema => "SchemaInit: schemas containing a space are not supported"
  | from_pg e => e
  | schema_missing schema =>
      "PostgreSQL schema [" +:+ schema
      +:+ "] does not exist - did you run httpdump/storage/pg.SchemaInit?"
  | from_ddl e => "SchemaInit: " +:+ e
  end.

(** [for _, ddl := range ddls]: the first error leaves the function. *)
Fixpoint range_ddls (ddls : list DDL) (cat : Catalog) : option init_error * Catalog :=
  match ddls with
  | [] => (None, cat)
  | ddl :: ddls' =>
      match dbh_Exec ddl cat with
      | (Some err, cat') => (Some (from_ddl err), cat')
      | (None, cat') => range_ddls ddls' cat'
      end
  end.

(** [SchemaInit(dbh, schema)]: the error, the catalog it leaves and the
    lines it logs. *)
Definition SchemaInit (schema : string) (cat : Catalog)
    : option init_error * Catalog * list string :=
  let schema := if decide (schema = "") then "request_dump" else schema in
  if decide (0 ≤ strings_Index schema " ") then (Some space_in_schema, cat, [])
  else
    match pg_SchemaExists schema cat with
    | (inr err, cat) => (Some (from_pg err), cat, [])
    | (inl false, cat) => (Some (schema_missing schema), cat, [])
    | (inl true, cat) =>
        let table := "relay_messages" in
        match pg_TableExistsInSchema table schema cat with
        | (inr err, cat) => (Some (from_pg err), cat, [])
        | (inl true, cat) => (None, cat, [])
        | (inl false, cat) =>
            let line := "SchemaInit: creating table [" +:+ schema +:+ "." +:+ table
                        +:+ "]" +:+ newline in
            let ddls := [ CREATE_TABLE schema table;
                          CREATE_INDEX (table +:+ "_smtp_to_smtp_from_idx") schema table ] in
            let '(err, cat) := range_ddls ddls cat in
            (err, cat, [line])
        end
    end.

(** ** main: the configuration read from the environment *)

(** A character class as a pattern: one of the bytes that [f] accepts. *)
Definition all_bytes : list ascii := ascii_of_nat <$> seq 0 256.

Definition one_of (cs : list ascii) : regexp :=
  foldr (λ c r, Alt (Lit c) r) Void cs.

Definition class (f : ascii → bool) : regexp :=
  one_of (base.filter (λ c, f c = true) all_bytes).

Definition between (lo hi : nat) (c : ascii) : bool :=
  (lo <=? nat_of_ascii c)%nat && (nat_of_ascii c <=? hi)%nat.

(** [\d] is [[0-9]], [\w] is [[0-9A-Za-z_]], [\S] is all but [\s]. *)
Definition is_d (c : ascii) : bool := between 48 57 c.
Definition is_w (c : ascii) : bool :=
  between 48 57 c || between 65 90 c || between 97 122 c || (nat_of_ascii c =? 95)%nat.
Definition is_S (c : ascii) : bool := negb (perl_space c).

(** [var word = re.MustCompile(`^\w*$`)], [var nows = re.MustCompile(`^\S*$`)],
    [var digits = re.MustCompile(`^\d*$`)]: the pattern between the two
    anchors. *)
Definition word : regexp := Star (class is_w).
Definition nows : regexp := Star (class is_S).
Definition digits : regexp := Star (class is_d).

(** [re.MatchString(s)] for a pattern anchored at both ends: the whole of
    [s] is in the language. *)
Fixpoint MatchString (r : regexp) (s : string) : bool :=
  match s with
  | EmptyString => nullable r
  | String c s' => MatchString (deriv c r) s'
  end.

(** [envVars]. *)
Definition envVars : list (string * regexp) :=
  [ ("PORT", digits);
    ("DATABASE_URL", nows);
    ("RELAYMSG_PG_DB", word);
    ("RELAYMSG_PG_SCHEMA", word);
    ("RELAYMSG_PG_USER", word);
    ("RELAYMSG_PG_PASS", nows);
    ("RELAYMSG_PG_MAX_CONNS", digits);
    ("RELAYMSG_BATCH_INTERVAL", digits);
    ("RELAYMSG_INBOUND_DOMAIN", nows);
    ("RELAYMSG_ALLOWED_ORIGIN", nows) ].

(** What ends [main]: [log.Fatalf] on a value that its pattern does not
    match, [log.Fatal] on an error of [strconv.Atoi]. *)
Inductive NumError : Type :=
| ErrSyntax
| ErrRange.

Inductive fatal : Type :=
| Unsupported (k : string)    (* "Unsupported value for k, double check your parameters." *)
| Atoi_failed (e : NumError).

(** [cfg[k]] of a [map[string]string]: the empty string for a key that
    is absent. *)
Definition at_key (cfg : gmap string string) (k : string) : string :=
  default "" (cfg !! k).

(** [for k, v := range envVars { cfg[k] = os.Getenv(k); if
    !v.MatchString(cfg[k]) { log.Fatalf(...) } }]. The order in which
    [range] visits a map is not fixed: [order] is the order of one run.
    [getenv k] is [os.Getenv(k)], empty for a variable that is not set. *)
Fixpoint range_envVars (order : list (string * regexp)) (getenv : string → string)
    (cfg : gmap string string) : fatal + gmap string string :=
  match order with
  | [] => inr cfg
  | (k, v) :: order' =>
      let cfg := <[k := getenv k]> cfg in
      if MatchString v (at_key cfg k) then range_envVars order' getenv cfg
      else inl (Unsupported k)
  end.

(** [if cfg[k] == "" { cfg[k] = v }]. *)
Definition set_default (k v : string) (cfg : gmap string string) : gmap string string :=
  if decide (at_key cfg k = "") then <[k := v]> cfg else cfg.

Definition maxInt64 : Z := 2 ^ 63 - 1.
Definition minInt64 : Z := - 2 ^ 63.

(** The number a string of decimal digits writes, if it is one. *)
Fixpoint decimal (s : string) (acc : Z) : option Z :=
  match s with
  | EmptyString => Some acc
  | String c s' =>
      if is_d c then decimal s' (10 * acc + Z.of_nat (nat_of_ascii c - 48)) else None
  end.

(** [strconv.Atoi(s)] on a 64-bit platform: an optional sign, then one or
    more decimal digits; a value that does not fit [int] is out of range. *)
Definition Atoi (s : string) : Z + NumError :=
  let '(negative, body) :=
    match s with
    | String "-" body => (true, body)
    | String "+" body => (false, body)
    | _ => (false, s)
    end in
  match body with
  | EmptyString => inr ErrSyntax
  | _ =>
      match decimal body 0 with
      | None => inr ErrSyntax
      | Some n =>
          let v := if negative : bool then - n else n in
          if decide (minInt64 ≤ v ≤ maxInt64) then inl v else inr ErrRange
      end
  end.

(** A product of [int64]s wraps around. *)
Definition wrap64 (z : Z) : Z := (z + 2 ^ 63) `mod` 2 ^ 64 - 2 ^ 63.

(** What [main] has computed from the environment when it starts the
    ticker: the map [cfg] with its defaults, the two numbers, the schema
    and [interval := time.Duration(batchInterval) * time.Second]. *)
Record Settings : Type := {
  cfg : gmap string string;
  batchInterval : Z;
  maxConns : Z;
  schema : string;
  interval : Z;
}.

(** The part of [main] that depends on the environment alone; connecting
    to the database and the two schema initialisations, which come
    between these lines, are left out. *)
Definition settings (order : list (string * regexp)) (getenv : string → string)
    : fatal + Settings :=
  match range_envVars order getenv ∅ with
  | inl f => inl f
  | inr cfg =>
      let cfg := set_default "PORT" "5000" cfg in
      let cfg := set_default "RELAYMSG_BATCH_INTERVAL" "10" cfg in
      match Atoi (at_key cfg "RELAYMSG_BATCH_INTERVAL") with
      | inr err => inl (Atoi_failed err)
      | inl batchInterval =>
          let cfg := set_default "RELAYMSG_INBOUND_DOMAIN" "hey.avocado.industries" cfg in
          let cfg := set_default "RELAYMSG_PG_MAX_CONNS" "18" cfg in
          match Atoi (at_key cfg "RELAYMSG_PG_MAX_CONNS") with
          | inr err => inl (Atoi_failed err)
          | inl maxConns =>
              let schema := at_key cfg "RELAYMSG_PG_SCHEMA" in
              let schema := if decide (schema = "") then "request_dump" else schema in
              inr {| cfg := cfg; batchInterval := batchInterval; maxConns := maxConns;
                     schema := schema;
                     interval := wrap64 (batchInterval * Second) |}
          end
      end
  end.

(** [time.NewTicker(d)] panics when [d] is not positive. *)
Definition NewTicker_panics (d : Z) : Prop := d ≤ 0.

(** ** Vocabulary of the statements *)

(** The text begins, white space apart, with an opening brace, the key
    "msys" written literally, a colon, an opening brace, the key
    "relay_message" written literally and a colon. *)
Definition relay_shape (j : string) : Prop :=
  ∃ w1 w2 w3 w4 w5 w6 rest : string,
    (all_space w1 ∧ all_space w2 ∧ all_space w3 ∧
     all_space w4 ∧ all_space w5 ∧ all_space w6) ∧
    j = w1 +:+ "{" +:+ w2 +:+ quoted "msys" +:+ w3 +:+ ":" +:+
        w4 +:+ "{" +:+ w5 +:+ quoted "relay_message" +:+ w6 +:+ ":" +:+ rest.

(** The world after one more log line. *)
Definition log_line (line : string) (w : World) : World := (log_Printf line w).2.

(** [w'] differs from [w] by log lines only. *)
Definition only_logged (w w' : World) : Prop :=
  Dbh w' = Dbh w ∧ cache w' = cache w ∧ clock w' = clock w ∧
  ∃ lines, logged w' = logged w ++ lines.

(** The size of the body of a message, as [len(msg.Content.Email)]. *)
Definition body_size (msg : RelayMessage) : Z :=
  Z.of_nat (String.length (Email (Content msg))).

(** The row that [StoreEvent] asks the database to insert. *)
Definition row_of (id clock : Z) (msg : RelayMessage) : MessageRecord :=
  {| message_id := id;
     webhook_id := WebhookID msg;
     smtp_from := From msg;
     smtp_to := To msg;
     subject := Subject (Content msg);
     rfc822 := Email (Content msg);
     is_base64 := Base64 (Content msg);
     created := clock;
     status_id := 0 |}.

Definition table (w : World) : list MessageRecord := relay_messages (Dbh w).

Definition ignored_line (j : string) : string :=
  "ParseEvent ignored event: " +:+ j +:+ newline.

(** The lines [ProcessRequests] logs. *)
Definition called_line (reqs : list Request) : string :=
  "ProcessRequests called with " +:+ pretty (length reqs) +:+ " requests" +:+ newline.

Definition found_line (events : list (option string)) (i : nat) : string :=
  "ProcessRequests found " +:+ pretty (length events)
  +:+ " events from request " +:+ pretty i +:+ newline.

Definition failed_line (req : Request) : string :=
  "ProcessRequests failed to parse JSON:" +:+ newline +:+ Data req +:+ newline.

(** Every row of the table has a body below the limit. *)
Definition bodies_below_limit (w : World) : Prop :=
  Forall (λ r, Z.of_nat (String.length (rfc822 r)) < MaxMessageSize) (table w).

(** ** Worked inputs *)

Definition object1 (key value : string) : string :=
  "{" +:+ quoted key +:+ ":" +:+ value +:+ "}".

(** An event of the relay webhook around the text of a message. *)
Definition relay_event (message : string) : string :=
  object1 "msys" (object1 "relay_message" message).

Definition array1 (element : string) : string := "[" +:+ element +:+ "]".

Fixpoint bytes (n : nat) (c : ascii) : string :=
  match n with
  | O => ""
  | S n' => String c (bytes n' c)
  end.

Definition message_with_body (body : string) : RelayMessage :=
  {| Content := {| Base64 := false; Email := body; Subject := "Hi" |};
     From := "a@x.com"; To := "bob@y.com"; WebhookID := "w1" |}.

Definition parser0 : RelayMsgParser := {| Schema := "request_dump"; Domain := "y.com" |}.

(** An empty table, and what the database will answer to the coming
    statements. *)
Definition fresh_db (exec : list (option string)) (query : list (option QueryFault)) : DB :=
  {| relay_messages := []; next_message_id := 1;
     exec_outcomes := exec; query_outcomes := query; statements := [] |}.

Definition world_of (d : DB) : World :=
  {| Dbh := d; cache := SummaryHandler_c; clock := 0; logged := [] |}.

(** The decoder of the worked examples. *)
Definition reference : Unmarshal := ReferenceDecode.decoder ReferenceDecode.sparkpost.

(** A raw request that holds one relay message, all of whose fields are
    absent. *)
Definition relay_request : Request := {| Data := array1 (relay_event "{}") |}.

(** The payload of the last scenario of the specification. *)
Definition other_event_request : Request :=
  {| Data := array1 ("{" +:+ quoted "other_event" +:+ ": {}}") |}.

(** A relay message under "msys", written after another key. *)
Definition relay_event_after_meta : string :=
  "{" +:+ quoted "meta" +:+ ":{}," +:+ quoted "msys" +:+ ":"
  +:+ object1 "relay_message" "{}" +:+ "}".

(** ** Vocabulary of the statements about the handler *)

Definition hit_line (localpart : string) : string :=
  "SummarizeEvents (cache): hit for [" +:+ localpart +:+ "]".

(** The fault, if any, that the database holds for the coming query. *)
Definition coming_fault (d : DB) : option QueryFault :=
  default None (head (query_outcomes d)).

(** A fault reaches the handler unless it is a failure of [Scan] at a row
    that the result does not have. *)
Definition takes_effect (f : QueryFault) (rows : nat) : bool :=
  match f with
  | QueryFails _ => true
  | ScanFails k _ => bool_decide (k < rows)%nat
  | NextFails _ _ => true
  end.

(** The lookup of [localpart] in [w], once it asks the database, fails:
    [Query] returns an error, or a [Scan] of the loop does, or
    [rows.Err()] is an error after the loop. *)
Definition lookup_fails (p : RelayMsgParser) (localpart : string) (w : World) : Prop :=
  match (db_Query_SELECT (Schema p) localpart (Domain p) (Dbh w)).1 with
  | inr _ => True
  | inl rows => (∃ e, scan_rows (to_scan rows) ∅ = inr e) ∨ is_Some (Err rows)
  end.

(** The same, read off the fault the database holds. *)
Definition query_fails (p : RelayMsgParser) (localpart : string) (w : World) : bool :=
  match coming_fault (Dbh w) with
  | Some f => takes_effect f (length (summary_rows localpart (Domain p) (table w)))
  | None => false
  end.

(** The world after the database has received a statement. *)
Definition after_statement (st : Statement) (w : World) : World :=
  {| Dbh := {| relay_messages := relay_messages (Dbh w);
               next_message_id := next_message_id (Dbh w);
               exec_outcomes := exec_outcomes (Dbh w);
               query_outcomes := tail (query_outcomes (Dbh w));
               statements := statements (Dbh w) ++ [st] |};
     cache := cache w; clock := clock w; logged := logged w |}.

(** What happens between two requests: time passes, the janitor sweeps. *)
Inductive activity : Type :=
| Elapse (d : Z)
| Sweep.

Definition act (w : World) (a : activity) : World :=
  match a with
  | Elapse d => elapse d w
  | Sweep => janitor w
  end.

Definition idle (acts : list activity) (w : World) : World := foldl act w acts.

Fixpoint duration (acts : list activity) : Z :=
  match acts with
  | [] => 0
  | Elapse d :: acts' => d + duration acts'
  | Sweep :: acts' => duration acts'
  end.

(** Time does not run backwards. *)
Definition forward (acts : list activity) : Prop :=
  Forall (λ a, match a with Elapse d => 0 ≤ d | Sweep => True end) acts.

(** The body [{"results":[]}]. *)
Definition empty_results : string := "{" +:+ quoted "results" +:+ ":[]}".

(** A table with the rows of the given senders, all to bob@y.com with
    the subject Hi. *)
Definition rows_from (senders : list string) : list MessageRecord :=
  imap (λ i sender,
          {| message_id := 1 + Z.of_nat i; webhook_id := "w1";
             smtp_from := sender; smtp_to := "bob@y.com"; subject := "Hi";
             rfc822 := "hello"; is_base64 := false; created := 0; status_id := 0 |})
       senders.

Definition world_with (rows : list MessageRecord) (query : list (option QueryFault)) : World :=
  {| Dbh := {| relay_messages := rows; next_message_id := 1 + Z.of_nat (length rows);
               exec_outcomes := []; query_outcomes := query; statements := [] |};
     cache := SummaryHandler_c; clock := 0; logged := [] |}.

(** A row of the result as the handler keeps it, and as [Scan] reads it. *)
Definition mk (row : string * Z) : SummaryResponse :=
  {| Subject' := row.1; Count := row.2 |}.

Definition as_scanned (row : string * Z) : ScanResult := ScanOk row.1 row.2.

(** The body the handler builds from the rows of the result. *)
Definition summary_body (result : list (string * Z)) : string :=
  Marshal.map_ (match result with
                | [] => ∅
                | _ => {["results" := mk <$> result]}
                end).

(** The answer of a lookup that has to ask the database, in the world
    [w1] that has received the query. *)
Definition computed (p : RelayMsgParser) (k : string) (result : list (string * Z))
    (fault : option QueryFault) (w1 : World) : Response * World :=
  let failure (step e : string) :=
    (http_Error "Database error" StatusInternalServerError,
     log_line ("SummarizeEvents (" +:+ step +:+ "): " +:+ e) w1) in
  let success :=
    (Write (summary_body result),
     (c_Set k (summary_body result) DefaultExpiration w1).2) in
  match fault with
  | Some (QueryFails e) => failure "SELECT" e
  | Some (ScanFails i e) =>
      if bool_decide (i < length result)%nat then failure "Scan" e else success
  | Some (NextFails i e) => failure "Err" e
  | None => success
  end.

(** ** Vocabulary of the further statements about the extraction *)

(** The message [ParseEvent] finds in the text of an event: the value
    under "relay_message" of the value under "msys" of the decoded blob. *)
Definition decoded_message `{Unmarshal} (j : string) : option RelayMessage :=
  blob ← Unmarshal_blob j; msys ← blob !! "msys"; msys !! "relay_message".

Definition arrow_line (msg : RelayMessage) : string :=
  From msg +:+ " => " +:+ To msg +:+ " (" +:+ WebhookID msg +:+ ")" +:+ newline.


(** The error, if any, that the database holds for the coming INSERT. *)
Definition coming_refusal (d : DB) : option string :=
  default None (head (exec_outcomes d)).

(** The six columns of a row that [StoreEvent] fills. *)
Definition content (r : MessageRecord) : string * string * string * string * string * bool :=
  (webhook_id r, smtp_from r, smtp_to r, subject r, rfc822 r, is_base64 r).

(** The statements the database has received are those of [w] followed by
    [n] INSERTs into the schema of [p], which stored [rows]. *)
Definition inserted (p : RelayMsgParser) (w : World) (rows : list MessageRecord)
    (n : nat) (w' : World) : Prop :=
  table w' = table w ++ rows ∧
  statements (Dbh w') = statements (Dbh w) ++ replicate n (INSERT (Schema p)) ∧
  cache w' = cache w ∧ clock w' = clock w.

(** [P] holds of the world a run returns nil in, [Q] of the error and
    the world it ends with otherwise. *)
Definition outcome (P : World → Prop) (Q : error_value → World → Prop)
    (run : option error_value * World) : Prop :=
  match run with
  | (None, w') => P w'
  | (Some e, w') => Q e w'
  end.

(** Two runs return the same and leave worlds that [R] ties. *)
Definition alike (R : World → World → Prop)
    (run run' : option error_value * World) : Prop :=
  run.1 = run'.1 ∧ R run.2 run'.2.

(** ** Vocabulary of the further statements about the handler *)

(** The address the query filters on, [$1 ||'@'|| $2]. *)
Definition mailbox (localpart domain : string) : string :=
  localpart +:+ "@" +:+ domain.

(** [senders] are the distinct senders of the rows of [rows] that are
    addressed to [address] and have the subject [s]. *)
Definition distinct_senders (rows : list MessageRecord) (address s : string)
    (senders : list string) : Prop :=
  NoDup senders ∧
  ∀ x, x ∈ senders ↔
       ∃ r, r ∈ rows ∧ smtp_to r = address ∧ subject r = s ∧ smtp_from r = x.

(** ** Vocabulary of the statements about SchemaInit *)

(** The schema [SchemaInit] works on: request_dump when none is given. *)
Definition effective (schema : string) : string :=
  if decide (schema = "") then "request_dump" else schema.

Definition has_space (s : string) : Prop := ∃ a b, s = a +:+ " " +:+ b.

Definition relay_table (schema : string) : string * string := (schema, "relay_messages").

Definition relay_index (schema : string) : string * string :=
  (schema, "relay_messages_smtp_to_smtp_from_idx").

(** The two lookups [SchemaInit] starts with. *)
Definition lookups (schema : string) : list Call :=
  [SchemaExists schema; TableExistsInSchema "relay_messages" schema].

(** The two statements it sends when the table is missing. *)
Definition creation (schema : string) : list Call :=
  [ Exec (CREATE_TABLE schema "relay_messages");
    Exec (CREATE_INDEX "relay_messages_smtp_to_smtp_from_idx" schema "relay_messages") ].

Definition catalog0 (known : list string) (answers : list (option string)) : Catalog :=
  {| schemata := list_to_set known; tables := ∅; indexes := ∅;
     answers := answers; calls := [] |}.

(** ** Vocabulary of the statements about the configuration *)

(** Every byte of [s] is accepted by [f]. *)
Fixpoint all_of (f : ascii → bool) (s : string) : bool :=
  match s with
  | EmptyString => true
  | String c s' => f c && all_of f s'
  end.

(** The class behind each pattern of [envVars]. *)
Definition accepted_by (r : regexp) (s : string) : Prop := MatchString r s = true.

(** An environment in which only the batch interval is set. *)
Definition env_interval (v : string) (k : string) : string :=
  if decide (k = "RELAYMSG_BATCH_INTERVAL") then v else "".

(** * Properties *)

(** ** Strings *)

Lemma append_nil_l (s : string) : "" +:+ s = s.
Proof. reflexivity. Qed.

Lemma append_cons (c : ascii) (s1 s2 : string) :
  String c s1 +:+ s2 = String c (s1 +:+ s2).
Proof. reflexivity. Qed.

Lemma append_nil_r (s : string) : s +:+ "" = s.
Proof.
  induction s as [|c s IH]; [done |]. by rewrite append_cons, IH.
Qed.

Lemma append_assoc (s1 s2 s3 : string) : (s1 +:+ s2) +:+ s3 = s1 +:+ (s2 +:+ s3).
Proof.
  induction s1 as [|c s1 IH]; [done |]. by rewrite !append_cons, IH.
Qed.

Lemma append_eq_nil (s1 s2 : string) : s1 +:+ s2 = "" → s1 = "" ∧ s2 = "".
Proof. destruct s1; [done | rewrite append_cons; discriminate]. Qed.

Lemma append_eq_cons (s1 s2 : string) (c : ascii) (s : string) :
  s1 +:+ s2 = String c s →
  (s1 = "" ∧ s2 = String c s) ∨ (∃ s1', s1 = String c s1' ∧ s = s1' +:+ s2).
Proof.
  destruct s1 as [|c' s1]; intros Heq.
  - by left.
  - right. rewrite append_cons in Heq. injection Heq as -> <-. by exists s1.
Qed.

Lemma length_append (s1 s2 : string) :
  String.length (s1 +:+ s2) = (String.length s1 + String.length s2)%nat.
Proof.
  induction s1 as [|c s1 IH]; [done |]. rewrite append_cons. simpl. by rewrite IH.
Qed.

(** ** The matcher decides the language of a pattern *)

Module RegexpFacts.

Lemma nullable_matches (r : regexp) : nullable r = true ↔ matches r "".
Proof.
  split.
  - induction r; simpl; intros Hn; try discriminate.
    + constructor.
    + apply andb_prop in Hn as [H1 H2].
      change "" with ("" +:+ ""). constructor; auto.
    + apply orb_prop in Hn as [H1 | H2];
        [apply m_alt_l | apply m_alt_r]; auto.
    + constructor.
  - intros Hm. remember "" as s eqn:Hs.
    induction Hm; simpl; try discriminate; auto.
    + apply append_eq_nil in Hs as [-> ->].
      rewrite IHHm1, IHHm2; auto.
    + rewrite IHHm; auto.
    + rewrite IHHm, orb_true_r; auto.
Qed.

Lemma deriv_sound (c : ascii) (r : regexp) :
  ∀ s, matches (deriv c r) s → matches r (String c s).
Proof.
  induction r; simpl; intros s Hm.
  - inversion Hm.
  - inversion Hm.
  - destruct (Ascii.eqb_spec c c0) as [-> | Hne]; inversion Hm; subst. constructor.
  - destruct (perl_space c) eqn:Hc; inversion Hm; subst. by constructor.
  - destruct (nullable r1) eqn:Hn.
    + inversion Hm as [ | | | | ? ? ? Hl | ? ? ? Hr | | ]; subst.
      * inversion Hl; subst.
        change (String c (s1 +:+ s2)) with (String c s1 +:+ s2).
        constructor; auto.
      * change (String c s) with ("" +:+ String c s).
        constructor; [by apply nullable_matches | auto].
    + inversion Hm; subst.
      change (String c (s1 +:+ s2)) with (String c s1 +:+ s2).
      constructor; auto.
  - inversion Hm; subst; [apply m_alt_l | apply m_alt_r]; auto.
  - inversion Hm; subst.
    change (String c (s1 +:+ s2)) with (String c s1 +:+ s2).
    constructor; auto.
Qed.

Lemma deriv_complete (c : ascii) (r : regexp) (s0 : string) :
  matches r s0 → ∀ s, s0 = String c s → matches (deriv c r) s.
Proof.
  induction 1 as [ | c' | c' Hc | r1 r2 s1 s2 H1 IH1 H2 IH2 | r1 r2 s1 H1 IH1
                 | r1 r2 s2 H2 IH2 | r | r s1 s2 H1 IH1 H2 IH2 ];
    intros s Heq; simpl.
  - discriminate.
  - injection Heq as -> <-. rewrite Ascii.eqb_refl. constructor.
  - injection Heq as -> <-. rewrite Hc. constructor.
  - apply append_eq_cons in Heq as [[-> ->] | (s1' & -> & ->)].
    + apply nullable_matches in H1 as ->. apply m_alt_r; auto.
    + destruct (nullable r1); [apply m_alt_l |]; constructor; auto.
  - apply m_alt_l; auto.
  - apply m_alt_r; auto.
  - discriminate.
  - apply append_eq_cons in Heq as [[-> ->] | (s1' & -> & ->)].
    + by apply IH2.
    + constructor; auto.
Qed.

Lemma deriv_matches (c : ascii) (r : regexp) (s : string) :
  matches (deriv c r) s ↔ matches r (String c s).
Proof. split; [apply deriv_sound | intros Hm; by eapply deriv_complete]. Qed.

(** [match_prefix] finds a prefix in the language exactly when there is one. *)
Lemma match_prefix_Some (r : regexp) (s : string) :
  is_Some (match_prefix r s) ↔ ∃ p q, s = p +:+ q ∧ matches r p.
Proof.
  revert r. induction s as [|c s IH]; intros r; simpl.
  - destruct (nullable r) eqn:Hn.
    + split; [intros _ | by eauto].
      exists "", "". split; [done | by apply nullable_matches].
    + split; [by intros [? ?] |].
      intros (p & q & Heq & Hm). symmetry in Heq.
      apply append_eq_nil in Heq as [-> ->].
      apply nullable_matches in Hm. congruence.
  - destruct (nullable r) eqn:Hn.
    + split; [intros _ | by eauto].
      exists "", (String c s). split; [done | by apply nullable_matches].
    + rewrite fmap_is_Some, IH. split.
      * intros (p & q & -> & Hm). exists (String c p), q.
        split; [done | by apply deriv_matches].
      * intros (p & q & Heq & Hm). symmetry in Heq.
        apply append_eq_cons in Heq as [[-> ->] | (p' & -> & ->)].
        -- apply nullable_matches in Hm. congruence.
        -- exists p', q. split; [done | by apply deriv_matches].
Qed.

Lemma matches_cat (r1 r2 : regexp) (s : string) :
  matches (Cat r1 r2) s ↔ ∃ s1 s2, s = s1 +:+ s2 ∧ matches r1 s1 ∧ matches r2 s2.
Proof.
  split.
  - inversion 1; subst. eauto.
  - intros (s1 & s2 & -> & H1 & H2). by constructor.
Qed.

Lemma matches_lit_string (l s : string) : matches (lit_string l) s ↔ s = l.
Proof.
  revert s. induction l as [|c l IH]; intros s; simpl.
  - split; [by inversion 1 | intros ->; constructor].
  - rewrite matches_cat. split.
    + intros (s1 & s2 & -> & H1 & H2). inversion H1; subst.
      apply IH in H2 as ->. done.
    + intros ->. exists (String c ""), l. split; [done |].
      split; [constructor | by apply IH].
Qed.

Lemma matches_spaces (s : string) : matches (Star Space) s ↔ all_space s = true.
Proof.
  split.
  - intros Hm. remember (Star Space) as r eqn:Hr.
    induction Hm as [ | | | | | | | r' s1 s2 H1 _ H2 IH2 ]; try discriminate; [done |].
    injection Hr as ->. inversion H1 as [ | | c Hc | | | | | ]; subst.
    simpl. rewrite Hc. by apply IH2.
  - induction s as [|c s IH]; simpl; intros Hs; [constructor |].
    apply andb_prop in Hs as [Hc Hs].
    change (String c s) with (String c "" +:+ s).
    constructor; [by constructor | auto].
Qed.

End RegexpFacts.

(** ** What [relayMsg] recognises *)

Lemma FindStringIndex_nil (r : regexp) (s : string) :
  FindStringIndex r s = [] ↔ match_prefix r s = None.
Proof. unfold FindStringIndex. destruct (match_prefix r s); split; congruence. Qed.

Lemma FindStringIndex_matched (r : regexp) (s : string) :
  FindStringIndex r s ≠ [] ↔ ∃ p q, s = p +:+ q ∧ matches r p.
Proof.
  rewrite <- RegexpFacts.match_prefix_Some, FindStringIndex_nil.
  destruct (match_prefix r s); split; try done; by intros [? ?].
Qed.

Lemma matches_relayMsg (p : string) :
  matches relayMsg p ↔
  ∃ w1 w2 w3 w4 w5 w6 : string,
    (all_space w1 ∧ all_space w2 ∧ all_space w3 ∧
     all_space w4 ∧ all_space w5 ∧ all_space w6) ∧
    p = w1 +:+ "{" +:+ w2 +:+ quoted "msys" +:+ w3 +:+ ":" +:+
        w4 +:+ "{" +:+ w5 +:+ quoted "relay_message" +:+ w6 +:+ ":".
Proof.
  cbv [relayMsg cat_list]. split.
  - intros Hm.
    repeat match goal with
           | H : matches (Star Space) _ |- _ => apply RegexpFacts.matches_spaces in H
           | H : matches (lit_string _) _ |- _ =>
               apply RegexpFacts.matches_lit_string in H as ->
           | H : matches Eps _ |- _ => inversion H; subst; clear H
           | H : matches (Cat _ _) _ |- _ =>
               apply RegexpFacts.matches_cat in H as (? & ? & -> & ? & ?)
           end.
    rewrite (append_nil_r ":").
    eexists _, _, _, _, _, _. apply and_comm. split; [reflexivity |].
    by repeat split; apply Is_true_true_2.
  - intros (w1 & w2 & w3 & w4 & w5 & w6 & (H1 & H2 & H3 & H4 & H5 & H6) & ->).
    apply Is_true_true_1 in H1, H2, H3, H4, H5, H6.
    repeat (apply m_cat;
            [first [by apply RegexpFacts.matches_spaces
                   | by apply RegexpFacts.matches_lit_string] |]).
    apply RegexpFacts.matches_cat. exists ":", "".
    split; [done | split; [by apply RegexpFacts.matches_lit_string | constructor]].
Qed.

Lemma relayMsg_shape (j : string) :
  FindStringIndex relayMsg j ≠ [] ↔ relay_shape j.
Proof.
  rewrite FindStringIndex_matched. unfold relay_shape. split.
  - intros (p & q & -> & Hm). apply matches_relayMsg in Hm
      as (w1 & w2 & w3 & w4 & w5 & w6 & Hw & ->).
    exists w1, w2, w3, w4, w5, w6, q. split; [done |].
    by rewrite !append_assoc.
  - intros (w1 & w2 & w3 & w4 & w5 & w6 & rest & Hw & ->).
    eexists _, rest. split; [| apply matches_relayMsg; by eexists _, _, _, _, _, _].
    by rewrite !append_assoc.
Qed.

(** ** Running the monad *)

Lemma run_bind {A B : Type} (m : M A) (f : A → M B) (w : World) :
  (m ≫= f) w = let '(a, w') := m w in f a w'.
Proof. reflexivity. Qed.

Lemma run_ret {A : Type} (a : A) (w : World) : (mret a : M A) w = (a, w).
Proof. reflexivity. Qed.

Lemma run_log_Printf (line : string) (w : World) :
  log_Printf line w = (tt, log_line line w).
Proof. reflexivity. Qed.

Lemma only_logged_refl (w : World) : only_logged w w.
Proof. repeat split. exists []. by rewrite app_nil_r. Qed.

Lemma only_logged_line (line : string) (w : World) : only_logged w (log_line line w).
Proof. repeat split. by exists [line]. Qed.

Lemma only_logged_trans (w1 w2 w3 : World) :
  only_logged w1 w2 → only_logged w2 w3 → only_logged w1 w3.
Proof.
  intros (Hd & Hc & Ht & l & Hl) (Hd' & Hc' & Ht' & l' & Hl').
  repeat split; try congruence.
  exists (l ++ l'). by rewrite Hl', Hl, app_assoc.
Qed.

Create HintDb world.
#[local] Hint Resolve only_logged_refl only_logged_line : world.

Section StoreEventFacts.

Implicit Types (p : RelayMsgParser) (msg : RelayMessage) (w : World).

Lemma StoreEvent_oversized p msg w :
  MaxMessageSize ≤ body_size msg →
  StoreEvent p msg w = (Some (StoreEvent_size (From msg) (body_size msg)), w).
Proof.
  intros Hsize. unfold StoreEvent. fold (body_size msg).
  by destruct (decide (MaxMessageSize ≤ body_size msg)).
Qed.

Lemma StoreEvent_refused p msg w e rest :
  body_size msg < MaxMessageSize →
  exec_outcomes (Dbh w) = Some e :: rest →
  ∃ w', StoreEvent p msg w = (Some (StoreEvent_INSERT e), w') ∧
        table w' = table w ∧
        statements (Dbh w') = statements (Dbh w) ++ [INSERT (Schema p)] ∧
        cache w' = cache w ∧ clock w' = clock w ∧ logged w' = logged w.
Proof.
  intros Hsize Hout. unfold StoreEvent. fold (body_size msg).
  destruct (decide (MaxMessageSize ≤ body_size msg)); [lia |].
  rewrite run_bind. unfold with_Dbh, db_Exec_INSERT. rewrite Hout. simpl.
  eexists. split; [reflexivity |]. by repeat split.
Qed.

Lemma StoreEvent_served p msg w :
  body_size msg < MaxMessageSize →
  (∀ e, head (exec_outcomes (Dbh w)) ≠ Some (Some e)) →
  ∃ w', StoreEvent p msg w = (None, w') ∧
        table w' = table w ++ [row_of (next_message_id (Dbh w)) (clock w) msg] ∧
        statements (Dbh w') = statements (Dbh w) ++ [INSERT (Schema p)] ∧
        cache w' = cache w ∧ clock w' = clock w ∧ logged w' = logged w.
Proof.
  intros Hsize Hout. unfold StoreEvent. fold (body_size msg).
  destruct (decide (MaxMessageSize ≤ body_size msg)); [lia |].
  rewrite run_bind. unfold with_Dbh, db_Exec_INSERT.
  destruct (exec_outcomes (Dbh w)) as [|[e|] rest] eqn:Hex; simpl.
  - eexists. split; [reflexivity |]. by repeat split.
  - by destruct (Hout e).
  - eexists. split; [reflexivity |]. by repeat split.
Qed.

(** Whatever it answers, [StoreEvent] leaves the cache, the clock and the
    log alone, and the table grows by at most the row of the message. *)
Lemma StoreEvent_table p msg w :
  let w' := (StoreEvent p msg w).2 in
  (table w' = table w ∨
   (body_size msg < MaxMessageSize ∧
    table w' = table w ++ [row_of (next_message_id (Dbh w)) (clock w) msg])) ∧
  cache w' = cache w ∧ clock w' = clock w ∧ logged w' = logged w.
Proof.
  destruct (decide (MaxMessageSize ≤ body_size msg)) as [Hbig | Hsmall].
  - rewrite StoreEvent_oversized by done. simpl. by repeat split; [left |..].
  - destruct (exec_outcomes (Dbh w)) as [|[e|] rest] eqn:Hex.
    + destruct (StoreEvent_served p msg w) as (w' & -> & Ht & _ & ? & ? & ?);
        [lia | by rewrite Hex |]. simpl. repeat split; try done. right. split; [lia | done].
    + destruct (StoreEvent_refused p msg w e rest) as (w' & -> & Ht & _ & ? & ? & ?);
        [lia | done |]. simpl. by repeat split; [left |..].
    + destruct (StoreEvent_served p msg w) as (w' & -> & Ht & _ & ? & ? & ?);
        [lia | by rewrite Hex |]. simpl. repeat split; try done. right. split; [lia | done].
Qed.

End StoreEventFacts.

(** ** The loops of the extraction path *)

Section ExtractionFacts.

Context `{Unmarshal}.
Implicit Types (p : RelayMsgParser) (w : World) (j : string).

(** The test [len(idx) == 0 || idx[0] < 0] holds when nothing matched. *)
Lemma no_match_test j :
  let idx := FindStringIndex relayMsg j in
  (length idx = 0%nat ∨ idx !!! 0%nat < 0) ↔ idx = [].
Proof.
  unfold FindStringIndex. destruct (match_prefix relayMsg j); simpl.
  - split; [intros [? | ?]; [done | lia] | done].
  - split; [done | by left].
Qed.

Lemma ParseEvent_nil p w : ParseEvent p None w = (None, w).
Proof. reflexivity. Qed.

Lemma ParseEvent_no_match p j w :
  FindStringIndex relayMsg j = [] →
  ParseEvent p (Some j) w = (None, log_line (ignored_line j) w).
Proof.
  intros Hidx. unfold ParseEvent.
  destruct (decide _) as [_ | Hno]; [done |].
  destruct Hno. by apply no_match_test.
Qed.

Lemma forward_error (m : M (option error_value)) w :
  (err ← m; match err with Some err => mret (Some err) | None => mret None end) w = m w.
Proof. rewrite run_bind. by destruct (m w) as [[e|] w']. Qed.

(** An event either leaves a log line and nothing else, or it matched
    [relayMsg], decoded to a message, and went to [StoreEvent]. *)
Lemma ParseEvent_cases p j w :
  (∃ line, ParseEvent p (Some j) w = (None, log_line line w)) ∨
  (∃ msg line, FindStringIndex relayMsg j ≠ [] ∧
               ParseEvent p (Some j) w = StoreEvent p msg (log_line line w)).
Proof.
  unfold ParseEvent. destruct (decide _) as [Hno | Hyes].
  { left. by eexists. }
  destruct (Unmarshal_blob j) as [blob|]; [| left; by eexists].
  destruct (blob !! "msys") as [msys|]; [| left; by eexists].
  destruct (msys !! "relay_message") as [msg|]; [| left; by eexists].
  right. exists msg. eexists. split.
  - intros Hnil. apply Hyes. by apply no_match_test.
  - rewrite run_bind, run_log_Printf. apply forward_error.
Qed.

Lemma range_events_app p (es1 es2 : list (option string)) w :
  range_events p (es1 ++ es2) w =
  match range_events p es1 w with
  | (Some e, w') => (Some e, w')
  | (None, w') => range_events p es2 w'
  end.
Proof.
  revert w. induction es1 as [|ev es1 IH]; intros w; [done |].
  simpl. rewrite !run_bind. destruct (ParseEvent p ev w) as [[e|] w']; [done |].
  apply IH.
Qed.

Lemma range_reqs_app p (i : nat) (rs1 rs2 : list Request) w :
  range_reqs p i (rs1 ++ rs2) w =
  match range_reqs p i rs1 w with
  | (Some e, w') => (Some e, w')
  | (None, w') => range_reqs p (i + length rs1) rs2 w'
  end.
Proof.
  revert i w. induction rs1 as [|r rs1 IH]; intros i w.
  { simpl. by rewrite Nat.add_0_r. }
  simpl. destruct (Unmarshal_events (Data r)) as [evs|].
  - rewrite !run_bind, run_log_Printf, !run_bind.
    destruct (range_events p evs _) as [[e|] w']; [done |].
    rewrite IH. by replace (S i + length rs1)%nat with (i + S (length rs1))%nat by lia.
  - rewrite !run_bind, run_log_Printf. rewrite IH.
    by replace (S i + length rs1)%nat with (i + S (length rs1))%nat by lia.
Qed.

(** Events that [relayMsg] does not match, and nil pointers, only log. *)
Lemma range_events_unmatched p (es : list (option string)) w :
  Forall (λ ev, ∀ j, ev = Some j → FindStringIndex relayMsg j = []) es →
  ∃ w', range_events p es w = (None, w') ∧ only_logged w w'.
Proof.
  intros Hall. revert w. induction Hall as [|ev es Hev _ IH]; intros w.
  { exists w. eauto with world. }
  simpl. rewrite run_bind. destruct ev as [j|].
  - rewrite ParseEvent_no_match by eauto.
    destruct (IH (log_line (ignored_line j) w)) as (w' & -> & Hw').
    exists w'. split; [done |]. eapply only_logged_trans; eauto with world.
  - rewrite ParseEvent_nil. apply IH.
Qed.

(** A property of the world that log lines and [StoreEvent] preserve is
    preserved by the whole extraction. *)
Section Invariant.
Context (P : World → Prop).
Context (P_log : ∀ line w, P w → P (log_line line w)).
Context (P_store : ∀ p msg w, P w → P (StoreEvent p msg w).2).

Lemma ParseEvent_preserves p (ev : option string) w :
  P w → P (ParseEvent p ev w).2.
Proof.
  intros HP. destruct ev as [j|]; [| done].
  destruct (ParseEvent_cases p j w) as [(line & ->) | (msg & line & _ & ->)]; simpl; auto.
Qed.

Lemma range_events_preserves p (es : list (option string)) w :
  P w → P (range_events p es w).2.
Proof.
  revert w. induction es as [|ev es IH]; intros w HP; [done |].
  simpl. rewrite run_bind.
  pose proof (ParseEvent_preserves p ev w HP) as HP'.
  destruct (ParseEvent p ev w) as [[e|] w']; [done |]. by apply IH.
Qed.

Lemma range_reqs_preserves p (i : nat) (reqs : list Request) w :
  P w → P (range_reqs p i reqs w).2.
Proof.
  revert i w. induction reqs as [|r reqs IH]; intros i w HP; [done |].
  simpl. destruct (Unmarshal_events (Data r)) as [evs|].
  - rewrite !run_bind, run_log_Printf, !run_bind.
    match goal with
    | |- context [range_events p evs ?w1] =>
        pose proof (range_events_preserves p evs w1 (P_log _ w HP)) as HP';
        destruct (range_events p evs w1) as [[e|] w']; [done |]
    end.
    by apply IH.
  - rewrite !run_bind, run_log_Printf. apply IH. by apply P_log.
Qed.

Lemma ProcessRequests_preserves p (reqs : list Request) w :
  P w → P (ProcessRequests p reqs w).2.
Proof.
  intros HP. unfold ProcessRequests. rewrite run_bind, run_log_Printf.
  apply range_reqs_preserves. by apply P_log.
Qed.
End Invariant.

End ExtractionFacts.

(** ** StoreEvent and the size limit *)

(** C3, as stated, fails: the body is 5 bytes long, the database refuses
    the INSERT, and [StoreEvent] returns an error and appends nothing. *)
Lemma StoreEvent_small_body_refused :
  let w := world_of (fresh_db [Some "connection refused"] []) in
  let msg := message_with_body "hello" in
  body_size msg < MaxMessageSize ∧
  (StoreEvent parser0 msg w).1 = Some (StoreEvent_INSERT "connection refused") ∧
  table (StoreEvent parser0 msg w).2 = table w.
Proof. by vm_compute. Qed.

(** C3, amended: for an event whose body is strictly shorter than 8192
    bytes, if the database executes the INSERT then [StoreEvent] succeeds
    and appends exactly one row whose webhook_id, smtp_from, smtp_to,
    subject, rfc822 and is_base64 are the fields of the event; if the
    database refuses the INSERT with [e] then [StoreEvent] returns the
    error "StoreEvent (INSERT): e" and appends nothing. *)
Theorem StoreEvent_small_body (p : RelayMsgParser) (msg : RelayMessage) (w : World) :
  body_size msg < MaxMessageSize →
  match head (exec_outcomes (Dbh w)) with
  | Some (Some e) =>
      (StoreEvent p msg w).1 = Some (StoreEvent_INSERT e) ∧
      table (StoreEvent p msg w).2 = table w
  | _ =>
      (StoreEvent p msg w).1 = None ∧
      ∃ row, table (StoreEvent p msg w).2 = table w ++ [row] ∧
             webhook_id row = WebhookID msg ∧
             smtp_from row = From msg ∧
             smtp_to row = To msg ∧
             subject row = Subject (Content msg) ∧
             rfc822 row = Email (Content msg) ∧
             is_base64 row = Base64 (Content msg)
  end.
Proof.
  intros Hsize.
  destruct (exec_outcomes (Dbh w)) as [|[e|] rest] eqn:Hex; simpl.
  - destruct (StoreEvent_served p msg w) as (w' & -> & Ht & _); [done | by rewrite Hex |].
    split; [done |]. eexists. by split; [exact Ht |].
  - destruct (StoreEvent_refused p msg w e rest) as (w' & -> & Ht & _); done.
  - destruct (StoreEvent_served p msg w) as (w' & -> & Ht & _); [done | by rewrite Hex |].
    split; [done |]. eexists. by split; [exact Ht |].
Qed.

Lemma StoreEvent_small_body_witness :
  let w := world_of (fresh_db [] []) in
  let msg := message_with_body "hello" in
  (StoreEvent parser0 msg w).1 = None ∧
  ∃ row, table (StoreEvent parser0 msg w).2 = table w ++ [row] ∧
         webhook_id row = "w1" ∧ smtp_from row = "a@x.com" ∧
         smtp_to row = "bob@y.com" ∧ subject row = "Hi" ∧
         rfc822 row = "hello" ∧ is_base64 row = false.
Proof.
  apply (StoreEvent_small_body parser0 (message_with_body "hello")
           (world_of (fresh_db [] []))).
  by vm_compute.
Defined.

(** C4: for an event whose body is 8192 bytes or longer, [StoreEvent]
    returns the size error and the world it returns is the world it was
    given: no statement reaches the database. Hence every row that
    [StoreEvent], and so [ProcessRequests], adds to the table has a body
    shorter than 8192 bytes. *)
Theorem oversized_body_never_stored `{Unmarshal} (p : RelayMsgParser) :
  (∀ msg w, MaxMessageSize ≤ body_size msg →
     ∃ e, MessageTooLarge e ∧ StoreEvent p msg w = (Some e, w)) ∧
  (∀ msg w, bodies_below_limit w → bodies_below_limit (StoreEvent p msg w).2) ∧
  (∀ reqs w, bodies_below_limit w → bodies_below_limit (ProcessRequests p reqs w).2).
Proof.
  assert (Hstore : ∀ p msg w,
             bodies_below_limit w → bodies_below_limit (StoreEvent p msg w).2).
  { intros p' msg w Hw. unfold bodies_below_limit in *.
    destruct (StoreEvent_table p' msg w) as [[-> | [Hsize ->]] _]; [done |].
    apply Forall_app. split; [done |]. by repeat constructor. }
  split; [| split].
  - intros msg w Hsize. eexists. split; [| by apply StoreEvent_oversized]. done.
  - apply Hstore.
  - intros reqs w. by apply ProcessRequests_preserves.
Qed.

Lemma oversized_body_witness :
  let msg := message_with_body (bytes (Z.to_nat MaxMessageSize) "a") in
  let w := world_of (fresh_db [] []) in
  MaxMessageSize ≤ body_size msg ∧
  ∃ e, MessageTooLarge e ∧ StoreEvent parser0 msg w = (Some e, w).
Proof.
  split; [by vm_compute |].
  apply (proj1 (oversized_body_never_stored (H := ReferenceDecode.decoder ReferenceDecode.sparkpost) parser0)).
  by vm_compute.
Defined.

(** ** Recognition of relay messages *)

(** C10: on a nil pointer [ParseEvent] returns nil at once and the world
    is untouched (nothing stored, nothing logged); the pointer is never
    read. In the loop over the events a nil element is stepped over, so
    it cannot end a batch: an array of nil elements alone runs to the end
    and returns nil. *)
Theorem ParseEvent_nil_pointer `{Unmarshal} (p : RelayMsgParser)
    (events : list (option string)) (n : nat) (w : World) :
  ParseEvent p None w = (None, w) ∧
  range_events p (None :: events) w = range_events p events w ∧
  range_events p (replicate n None) w = (None, w).
Proof.
  split; [reflexivity |]. split; [reflexivity |].
  induction n as [|n IH]; [reflexivity |].
  simpl. by rewrite run_bind.
Qed.

(** C9: an element is recognised exactly when its text has the shape
    [relay_shape]: white space apart, it begins with a brace, the key
    "msys" written literally, a colon, a brace, the key "relay_message"
    written literally and a colon. An element of any other shape, such as
    one with another key before "msys", is skipped: [ParseEvent] returns
    nil, decodes nothing and sends nothing to the database; its only trace
    is the log line "ParseEvent ignored event". So the table changes only
    for an element of that shape. *)
Theorem recognition_follows_serialization `{Unmarshal} (p : RelayMsgParser)
    (j : string) (w : World) :
  (FindStringIndex relayMsg j ≠ [] ↔ relay_shape j) ∧
  (¬ relay_shape j → ParseEvent p (Some j) w = (None, log_line (ignored_line j) w)) ∧
  (Dbh (ParseEvent p (Some j) w).2 ≠ Dbh w → relay_shape j).
Proof.
  split; [apply relayMsg_shape |].
  assert (Hskip : ¬ relay_shape j →
                  ParseEvent p (Some j) w = (None, log_line (ignored_line j) w)).
  { intros Hno. apply ParseEvent_no_match.
    destruct (FindStringIndex relayMsg j) eqn:Hidx; [done |].
    destruct Hno. apply relayMsg_shape. by rewrite Hidx. }
  split; [done |].
  intros Hdb. apply relayMsg_shape. intros Hidx. apply Hdb.
  by rewrite ParseEvent_no_match.
Qed.

(** An event that holds a relay message under "msys", after a key "meta":
    the decoder would find the message, [ParseEvent] ignores the event. *)
Lemma relay_message_after_another_key :
  let w := world_of (fresh_db [] []) in
  (blob ← ReferenceDecode.blob ReferenceDecode.sparkpost relay_event_after_meta;
   msys ← blob !! "msys"; msys !! "relay_message") = Some ReferenceDecode.zero ∧
  ¬ relay_shape relay_event_after_meta ∧
  ParseEvent (H := reference) parser0 (Some relay_event_after_meta) w
  = (None, log_line (ignored_line relay_event_after_meta) w).
Proof.
  assert (Hno : ¬ relay_shape relay_event_after_meta).
  { intros Hshape. by apply relayMsg_shape in Hshape. }
  split; [by vm_compute | split; [done |]].
  by apply (recognition_follows_serialization (H := reference)).
Defined.

(** ** The batch *)

(** C5: when the payload of a raw request decodes as an array and
    [relayMsg] recognises none of its elements, processing that request
    returns nil and changes nothing but the log: no statement reaches the
    database and the table keeps its rows. *)
Theorem no_relay_message_nothing_stored `{Unmarshal} (p : RelayMsgParser)
    (req : Request) (events : list (option string)) (w : World) :
  Unmarshal_events (Data req) = Some events →
  Forall (λ ev, ∀ j, ev = Some j → ¬ relay_shape j) events →
  ∃ w', ProcessRequests p [req] w = (None, w') ∧
        only_logged w w' ∧ table w' = table w.
Proof.
  intros Hdec Hall.
  unfold ProcessRequests. rewrite run_bind, run_log_Printf. simpl range_reqs.
  rewrite Hdec, !run_bind, run_log_Printf, !run_bind.
  match goal with
  | |- context [range_events p events ?w1] =>
      destruct (range_events_unmatched p events w1) as (w' & -> & Hw')
  end.
  { eapply Forall_impl; [exact Hall |]. intros ev Hev j ->.
    destruct (FindStringIndex relayMsg j) eqn:Hidx; [done |].
    destruct (Hev j eq_refl). apply relayMsg_shape. by rewrite Hidx. }
  exists w'. split; [done |].
  assert (Hlog : only_logged w w').
  { eapply only_logged_trans; [| exact Hw'].
    eapply only_logged_trans; apply only_logged_line. }
  split; [done |]. unfold table. by destruct Hlog as [-> _].
Qed.

Lemma no_relay_message_witness :
  ∃ w', ProcessRequests (H := reference) parser0 [other_event_request]
          (world_of (fresh_db [] [])) = (None, w') ∧
        only_logged (world_of (fresh_db [] [])) w' ∧
        table w' = table (world_of (fresh_db [] [])).
Proof.
  apply (no_relay_message_nothing_stored (H := reference) parser0 other_event_request
           [Some ("{" +:+ quoted "other_event" +:+ ": {}}")]).
  - by vm_compute.
  - constructor; [| constructor]. intros j [= <-] Hshape.
    by apply relayMsg_shape in Hshape.
Defined.

(** C6: when the payload of a raw request does not decode ([Unmarshal]
    returns an error), the loop logs the payload and goes on with the
    requests that follow, exactly as it would from the next index; the
    request adds no error and no statement, and a batch made of it alone
    returns nil. *)
Theorem malformed_request_skipped `{Unmarshal} (p : RelayMsgParser)
    (req : Request) (rest : list Request) (i : nat) (w : World) :
  Unmarshal_events (Data req) = None →
  range_reqs p i (req :: rest) w = range_reqs p (S i) rest (log_line (failed_line req) w) ∧
  ProcessRequests p (req :: rest) w
  = range_reqs p 1 rest (log_line (failed_line req) (log_line (called_line (req :: rest)) w)) ∧
  ∃ w', ProcessRequests p [req] w = (None, w') ∧ only_logged w w'.
Proof.
  intros Hdec.
  assert (Hstep : ∀ k v, range_reqs p k (req :: rest) v
                         = range_reqs p (S k) rest (log_line (failed_line req) v)).
  { intros k v. simpl. by rewrite Hdec. }
  split; [apply Hstep |]. split.
  - unfold ProcessRequests. rewrite run_bind, run_log_Printf. apply Hstep.
  - unfold ProcessRequests. rewrite run_bind, run_log_Printf. simpl. rewrite Hdec.
    eexists. split; [reflexivity |].
    eapply only_logged_trans; apply only_logged_line.
Qed.

Lemma malformed_request_witness :
  let req := {| Data := object1 "not" "1" |} in
  let w := world_of (fresh_db [] []) in
  range_reqs (H := reference) parser0 0 [req; relay_request] w
  = range_reqs (H := reference) parser0 1 [relay_request] (log_line (failed_line req) w) ∧
  ProcessRequests (H := reference) parser0 [req; relay_request] w
  = range_reqs (H := reference) parser0 1 [relay_request]
      (log_line (failed_line req) (log_line (called_line [req; relay_request]) w)) ∧
  ∃ w', ProcessRequests (H := reference) parser0 [req] w = (None, w') ∧ only_logged w w'.
Proof.
  apply (malformed_request_skipped (H := reference) parser0
           {| Data := object1 "not" "1" |} [relay_request] 0
           (world_of (fresh_db [] []))).
  by vm_compute.
Defined.

(** The payload [null] is no array, yet [Unmarshal] accepts it and
    leaves the slice nil: the request counts zero events and is passed
    over like an empty array. *)
Example null_payload :
  let run := ProcessRequests (H := reference) parser0 [ {| Data := "null" |} ]
               (world_of (fresh_db [] [])) in
  Unmarshal_events (Unmarshal := reference) "null" = Some [] ∧
  run.1 = None ∧ table run.2 = [] ∧ statements (Dbh run.2) = [] ∧
  logged run.2 = [ called_line [ {| Data := "null" |} ]; found_line [] 0 ].
Proof. by vm_compute. Qed.

(** What the batch of the witness comes to: the malformed request is
    logged, and the relay message of the request after it is stored. *)
Example malformed_then_relay :
  let req := {| Data := object1 "not" "1" |} in
  let run := ProcessRequests (H := reference) parser0 [req; relay_request]
               (world_of (fresh_db [] [])) in
  run.1 = None ∧ length (table run.2) = 1%nat.
Proof. by vm_compute. Qed.

(** C1, as stated, fails. Two raw requests hold one relay message each.
    The database refuses the first INSERT and would serve the next one.
    [ProcessRequests] returns the error of the first request; the second
    request is never decoded: there is no log line for it, the database
    has received one statement only, and the table is empty. Run on its
    own in the world that is left, the second request stores its row. *)
Lemma store_failure_stops_the_batch :
  let w := world_of (fresh_db [Some "connection refused"] []) in
  let run := ProcessRequests (H := reference) parser0 [relay_request; relay_request] w in
  run.1 = Some (StoreEvent_INSERT "connection refused") ∧
  table run.2 = [] ∧
  statements (Dbh run.2) = [INSERT "request_dump"] ∧
  logged run.2 = [ called_line [relay_request; relay_request];
                   found_line [Some (relay_event "{}")] 0;
                   " =>  ()" +:+ newline ] ∧
  let rerun := ProcessRequests (H := reference) parser0 [relay_request] run.2 in
  rerun.1 = None ∧ length (table rerun.2) = 1%nat.
Proof. by vm_compute. Qed.

(** C1, amended: if storing a decoded event of the raw request of index
    [i] fails, [ProcessRequests] returns that error at once and the world
    it returns is the world the failed [StoreEvent] left: neither the
    elements after the failing one nor any raw request after index [i] is
    processed in that call. *)
Theorem store_failure_returns `{Unmarshal} (p : RelayMsgParser)
    (reqs : list Request) (i : nat) (req : Request)
    (before after : list (option string)) (event : option string)
    (e : error_value) (w w1 w2 w3 : World) :
  reqs !! i = Some req →
  range_reqs p 0 (take i reqs) (log_line (called_line reqs) w) = (None, w1) →
  Unmarshal_events (Data req) = Some (before ++ event :: after) →
  range_events p before (log_line (found_line (before ++ event :: after) i) w1) = (None, w2) →
  ParseEvent p event w2 = (Some e, w3) →
  ProcessRequests p reqs w = (Some e, w3) ∧
  ∃ msg line, StoreEvent p msg (log_line line w2) = (Some e, w3).
Proof.
  intros Hreq Hpre Hdec Hbefore Hfail. split.
  - unfold called_line, found_line in *.
    unfold ProcessRequests. rewrite run_bind, run_log_Printf.
    replace (range_reqs p 0 reqs)
      with (range_reqs p 0 (take i reqs ++ req :: drop (S i) reqs))
      by (by rewrite take_drop_middle).
    rewrite range_reqs_app, Hpre. simpl.
    rewrite Hdec, !run_bind, run_log_Printf, !run_bind.
    rewrite length_take_le by (apply lookup_lt_Some in Hreq; lia).
    rewrite range_events_app, Hbefore. simpl. by rewrite run_bind, Hfail.
  - destruct event as [j|]; [| by rewrite ParseEvent_nil in Hfail].
    destruct (ParseEvent_cases p j w2) as [(line & Hlog) | (msg & line & _ & Hstore)].
    + congruence.
    + exists msg, line. congruence.
Qed.

Lemma store_failure_returns_witness :
  let w := world_of (fresh_db [Some "connection refused"] []) in
  let run := ProcessRequests (H := reference) parser0 [relay_request; relay_request] w in
  run = (Some (StoreEvent_INSERT "connection refused"), run.2) ∧
  ∃ msg line w2, StoreEvent parser0 msg (log_line line w2) = run.
Proof.
  intros w run.
  pose (w1 := log_line (called_line [relay_request; relay_request]) w).
  pose (w2 := log_line (found_line [Some (relay_event "{}")] 0) w1).
  destruct (store_failure_returns (H := reference) parser0
              [relay_request; relay_request] 0 relay_request
              [] [] (Some (relay_event "{}"))
              (StoreEvent_INSERT "connection refused")
              w w1 w2
              (ParseEvent (H := reference) parser0 (Some (relay_event "{}")) w2).2)
    as [Hrun (msg & line & Hstore)]; try (by vm_compute).
  fold run in Hrun. split; [by rewrite Hrun |].
  exists msg, line, w2. by rewrite Hstore, Hrun.
Defined.

(** ** The summary handler *)

Section HandlerFacts.

Implicit Types (p : RelayMsgParser) (k : string) (w : World).

Lemma SummaryHandler_hit p k w (b : string) :
  Get (clock w) k (cache w) = Some b →
  SummaryHandler p k w = (Write b, log_line (hit_line k) w).
Proof.
  intros Hget. unfold SummaryHandler. rewrite run_bind. unfold c_Get. by rewrite Hget.
Qed.

Lemma cursor_scanned (result : list (string * Z)) :
  (λ '(s, n), ScanOk s n) <$> result = as_scanned <$> result.
Proof. apply list_fmap_ext. by intros i [s n]. Qed.

Lemma scan_rows_ok (result : list (string * Z)) (res : gmap string (list SummaryResponse)) :
  scan_rows (as_scanned <$> result) res =
  inl (match result with
       | [] => res
       | _ => <["results" := default [] (res !! "results") ++ (mk <$> result)]> res
       end).
Proof.
  revert res. induction result as [|[s n] result IH]; intros res; [done |].
  simpl. rewrite IH. f_equal. destruct result as [|row result]; [done |].
  rewrite lookup_insert_eq. simpl. rewrite insert_insert_eq.
  by rewrite <- app_assoc.
Qed.

Lemma scan_rows_err (oks : list (string * Z)) (e : string) (rest : list ScanResult)
    (res : gmap string (list SummaryResponse)) :
  scan_rows ((as_scanned <$> oks) ++ ScanErr e :: rest) res = inr e.
Proof.
  revert res. induction oks as [|[s n] oks IH]; intros res; [done |]. simpl. apply IH.
Qed.

Lemma summary_rows_none k (domain : string) (rows : list MessageRecord) :
  Forall (λ r, smtp_to r ≠ k +:+ "@" +:+ domain) rows →
  summary_rows k domain rows = [].
Proof.
  intros Hnone. unfold summary_rows.
  replace (filter _ rows) with (@nil MessageRecord); [done |].
  symmetry. induction Hnone as [|r rows Hr _ IH]; [done |].
  rewrite filter_cons. by destruct (decide _).
Qed.

Lemma scan_rows_from_empty (result : list (string * Z)) :
  scan_rows (as_scanned <$> result) ∅ =
  inl (match result with
       | [] => ∅
       | _ => {["results" := mk <$> result]}
       end).
Proof. rewrite scan_rows_ok. by destruct result. Qed.

Lemma SummaryHandler_miss p k w :
  Get (clock w) k (cache w) = None →
  SummaryHandler p k w =
  computed p k (summary_rows k (Domain p) (table w)) (coming_fault (Dbh w))
    (after_statement (SELECT (Schema p) k (Domain p)) w).
Proof.
  intros Hget. unfold SummaryHandler. rewrite run_bind. unfold c_Get. rewrite Hget.
  rewrite run_bind. unfold with_Dbh, db_Query_SELECT, coming_fault, computed, table.
  set (result := summary_rows k (Domain p) (relay_messages (Dbh w))).
  destruct (query_outcomes (Dbh w)) as [|[[e | i e | i e]|] rest] eqn:Hq; simpl.
  - unfold cursor. simpl. rewrite cursor_scanned, scan_rows_from_empty.
    unfold after_statement. by rewrite Hq.
  - unfold after_statement. by rewrite Hq.
  - unfold after_statement. rewrite Hq. simpl. rewrite cursor_scanned.
    case_bool_decide as Hi.
    + rewrite insert_take_drop by by rewrite length_fmap.
      rewrite <- fmap_take. by rewrite scan_rows_err.
    + rewrite list_insert_ge by (rewrite length_fmap; lia).
      by rewrite scan_rows_from_empty.
  - unfold after_statement. rewrite Hq. simpl.
    rewrite cursor_scanned, <- fmap_take, scan_rows_from_empty.
    by destruct (take i result).
  - unfold cursor. simpl. rewrite cursor_scanned, scan_rows_from_empty.
    unfold after_statement. by rewrite Hq.
Qed.

Lemma lookup_fails_fault p k w : lookup_fails p k w ↔ query_fails p k w = true.
Proof.
  unfold lookup_fails, query_fails, db_Query_SELECT, coming_fault, table.
  set (result := summary_rows k (Domain p) (relay_messages (Dbh w))).
  assert (Hnone : ∀ l : list (string * Z),
             (∃ e : string, scan_rows (as_scanned <$> l) ∅ = inr e) ∨ is_Some (@None string)
             ↔ false = true).
  { intros l. rewrite scan_rows_from_empty.
    split; [intros [[e ?] | [? ?]]; done | done]. }
  destruct (query_outcomes (Dbh w)) as [|[[e | i e | i e]|] rest]; simpl.
  - rewrite cursor_scanned. apply Hnone.
  - done.
  - rewrite cursor_scanned. case_bool_decide as Hi.
    + rewrite insert_take_drop by by rewrite length_fmap.
      rewrite <- fmap_take, scan_rows_err. split; [done |]. intros _. left. by eexists.
    + rewrite list_insert_ge by (rewrite length_fmap; lia). apply Hnone.
  - split; [done |]. intros _. right. by eexists.
  - rewrite cursor_scanned. apply Hnone.
Qed.

End HandlerFacts.

(** ** Between two lookups *)

Section IdleFacts.

Implicit Types (k : string) (w : World) (acts : list activity).

Lemma duration_forward acts : forward acts → 0 ≤ duration acts.
Proof.
  induction 1 as [|[d|] acts Ha _ IH]; simpl; lia.
Qed.

Lemma idle_world acts w :
  Dbh (idle acts w) = Dbh w ∧ logged (idle acts w) = logged w ∧
  clock (idle acts w) = clock w + duration acts ∧
  defaultExpiration (cache (idle acts w)) = defaultExpiration (cache w).
Proof.
  revert w. induction acts as [|[d|] acts IH]; intros w; simpl.
  - repeat split; lia.
  - destruct (IH (elapse d w)) as (-> & -> & -> & ->). simpl. repeat split; lia.
  - destruct (IH (janitor w)) as (-> & -> & -> & ->). by simpl.
Qed.

(** An entry that cannot expire before the end of [acts] is still there. *)
Lemma idle_keeps_item acts w k (it : Item) :
  forward acts →
  items (cache w) !! k = Some it →
  (0 < Expiration it → clock w + duration acts ≤ Expiration it) →
  items (cache (idle acts w)) !! k = Some it.
Proof.
  intros Hfwd. revert w. induction Hfwd as [|[d|] acts Ha Hacts IH]; intros w Hit Hexp;
    simpl in *; [done | |].
  - apply IH; simpl; [done |]. intros Hpos. specialize (Hexp Hpos). lia.
  - apply IH; simpl.
    + apply map_lookup_filter_Some. split; [done |]. simpl.
      intros [Hpos Hlt]. specialize (Hexp Hpos).
      pose proof (duration_forward acts Hacts). lia.
    + done.
Qed.

(** Nothing but a call of [Set] makes a lookup hit. *)
Lemma idle_keeps_miss acts w k :
  forward acts →
  Get (clock w) k (cache w) = None →
  Get (clock (idle acts w)) k (cache (idle acts w)) = None.
Proof.
  intros Hfwd. revert w. induction Hfwd as [|[d|] acts Ha _ IH]; intros w Hmiss;
    simpl in *; [done | |]; apply IH; unfold Get in *; simpl.
  - destruct (items (cache w) !! k) as [it|]; [| done].
    destruct (decide (expired (clock w) it)) as [[Hpos Hlt] | Hno]; [| done].
    rewrite decide_True; [done |]. split; [done | lia].
  - destruct (items (cache w) !! k) as [it|] eqn:Hit.
    + destruct (decide (expired (clock w) it)) as [Hexp | Hno]; [| done].
      replace (filter _ (items (cache w)) !! k) with (@None Item); [done |].
      symmetry. apply map_lookup_filter_None. right. intros it' Hit'. simpl.
      rewrite Hit in Hit'. injection Hit' as <-. tauto.
    + replace (filter _ (items (cache w)) !! k) with (@None Item); [done |].
      symmetry. apply map_lookup_filter_None. by left.
Qed.

End IdleFacts.

(** ** The claims about the handler *)

Lemma computed_failure p k (result : list (string * Z)) (f : QueryFault) (w1 : World) :
  takes_effect f (length result) = true →
  Code (computed p k result (Some f) w1).1 = StatusInternalServerError ∧
  only_logged w1 (computed p k result (Some f) w1).2.
Proof.
  intros Hf. unfold computed. destruct f as [e | i e | i e]; simpl in *.
  - split; [done | apply only_logged_line].
  - rewrite Hf. split; [done | apply only_logged_line].
  - split; [done | apply only_logged_line].
Qed.

Lemma computed_success p k (result : list (string * Z)) (fault : option QueryFault)
    (w1 : World) :
  Code (computed p k result fault w1).1 = StatusOK →
  computed p k result fault w1 =
  (Write (summary_body result), (c_Set k (summary_body result) DefaultExpiration w1).2).
Proof.
  unfold computed. destruct fault as [[e | i e | i e]|]; simpl; try done.
  by case_bool_decide.
Qed.

(** C7: when a lookup reaches the database and the query, the scan of a
    row or the iteration fails, the handler answers 500 and the cache is
    the cache it found; whatever time passes and however often the
    janitor sweeps, the next lookup of the same localpart sends the query
    again. *)
Theorem failed_lookup_not_cached (p : RelayMsgParser) (k : string) (w : World)
    (acts : list activity) :
  Get (clock w) k (cache w) = None →
  lookup_fails p k w →
  forward acts →
  let w' := (SummaryHandler p k w).2 in
  Code (SummaryHandler p k w).1 = StatusInternalServerError ∧
  cache w' = cache w ∧
  statements (Dbh w') = statements (Dbh w) ++ [SELECT (Schema p) k (Domain p)] ∧
  statements (Dbh (SummaryHandler p k (idle acts w')).2)
  = statements (Dbh w') ++ [SELECT (Schema p) k (Domain p)].
Proof.
  intros Hmiss Hfails Hfwd. simpl.
  rewrite (SummaryHandler_miss p k w Hmiss).
  apply lookup_fails_fault in Hfails. unfold query_fails in Hfails.
  destruct (coming_fault (Dbh w)) as [f|]; [| done].
  destruct (computed_failure p k _ f
              (after_statement (SELECT (Schema p) k (Domain p)) w) Hfails)
    as [Hcode (Hd & Hc & Ht & _)].
  set (w' := (computed p k _ (Some f) _).2) in *.
  split; [done |]. split; [by rewrite Hc |]. split; [by rewrite Hd |].
  assert (Hmiss' : Get (clock (idle acts w')) k (cache (idle acts w')) = None).
  { apply idle_keeps_miss; [done |]. by rewrite Hc, Ht. }
  rewrite (SummaryHandler_miss p k _ Hmiss').
  destruct (idle_world acts w') as (HD & _).
  set (w2 := after_statement _ (idle acts w')).
  assert (Hst : statements (Dbh w2) = statements (Dbh w') ++ [SELECT (Schema p) k (Domain p)]).
  { unfold w2. simpl. by rewrite HD. }
  rewrite <- Hst. unfold computed.
  by destruct (coming_fault _) as [[e | i e | i e]|]; simpl; try case_bool_decide.
Qed.

Lemma failed_lookup_witness :
  let w := world_with (rows_from ["a@x.com"; "c@z.com"]) [Some (ScanFails 0 "bad row")] in
  let w' := (SummaryHandler parser0 "bob" w).2 in
  let acts := [Elapse (2 * Second); Sweep] in
  Code (SummaryHandler parser0 "bob" w).1 = StatusInternalServerError ∧
  cache w' = cache w ∧
  statements (Dbh w') = statements (Dbh w) ++ [SELECT "request_dump" "bob" "y.com"] ∧
  statements (Dbh (SummaryHandler parser0 "bob" (idle acts w')).2)
  = statements (Dbh w') ++ [SELECT "request_dump" "bob" "y.com"].
Proof.
  apply (failed_lookup_not_cached parser0 "bob"
           (world_with (rows_from ["a@x.com"; "c@z.com"]) [Some (ScanFails 0 "bad row")])
           [Elapse (2 * Second); Sweep]).
  - by vm_compute.
  - apply lookup_fails_fault. by vm_compute.
  - repeat constructor. by vm_compute.
Defined.

(** C8: a lookup that finds an entry that has not expired answers with
    the stored bytes as they are; the world it leaves differs by the log
    line of the hit only, so no statement reaches the database and
    nothing is serialized or stored again. A lookup that follows a
    computed answer by at most one second, whatever the janitor does in
    between, is such a hit and returns the body of the computed answer. *)
Theorem cached_bytes_served (p : RelayMsgParser) (k : string) (w : World) :
  (∀ b, Get (clock w) k (cache w) = Some b →
        SummaryHandler p k w = (Write b, log_line (hit_line k) w)) ∧
  (∀ acts,
     defaultExpiration (cache w) = 1 * Second →
     Get (clock w) k (cache w) = None →
     Code (SummaryHandler p k w).1 = StatusOK →
     forward acts →
     duration acts ≤ 1 * Second →
     let w1 := idle acts (SummaryHandler p k w).2 in
     SummaryHandler p k w1
     = (Write (Body (SummaryHandler p k w).1), log_line (hit_line k) w1)).
Proof.
  split; [intros b; apply SummaryHandler_hit |].
  intros acts Httl Hmiss Hok Hfwd Hdur. cbv zeta.
  rewrite (SummaryHandler_miss p k w Hmiss) in *.
  rewrite (computed_success _ _ _ _ _ Hok). cbn [fst snd].
  set (b := summary_body _).
  set (w1 := (c_Set k b DefaultExpiration
                (after_statement (SELECT (Schema p) k (Domain p)) w)).2).
  change (Body (Write b)) with b.
  apply SummaryHandler_hit.
  pose (it := {| Object := b; Expiration := clock w + 1 * Second |}).
  assert (Hit : items (cache w1) !! k = Some it).
  { unfold w1, c_Set, Set_. simpl. rewrite Httl. simpl. by rewrite lookup_insert_eq. }
  assert (Hkept : items (cache (idle acts w1)) !! k = Some it).
  { apply idle_keeps_item; [done | done |]. intros _. simpl. lia. }
  unfold Get. rewrite Hkept. destruct (idle_world acts w1) as (_ & _ & -> & _).
  rewrite decide_False; [done |]. intros [_ Hlt]. simpl in Hlt. lia.
Qed.

Lemma cached_bytes_witness :
  let w := world_with (rows_from ["a@x.com"; "c@z.com"]) [] in
  let acts := [Elapse (400 * Millisecond); Sweep; Elapse (600 * Millisecond)] in
  let w1 := idle acts (SummaryHandler parser0 "bob" w).2 in
  SummaryHandler parser0 "bob" w1
  = (Write (Body (SummaryHandler parser0 "bob" w).1), log_line (hit_line "bob") w1).
Proof.
  apply (proj2 (cached_bytes_served parser0 "bob"
                  (world_with (rows_from ["a@x.com"; "c@z.com"]) []))
           [Elapse (400 * Millisecond); Sweep; Elapse (600 * Millisecond)]).
  - by vm_compute.
  - by vm_compute.
  - by vm_compute.
  - repeat constructor; by vm_compute.
  - by vm_compute.
Defined.

(** The second scenario of the specification: two messages to
    bob@y.com with the subject Hi, from two senders. *)
Example summary_of_two_senders :
  (SummaryHandler parser0 "bob" (world_with (rows_from ["a@x.com"; "c@z.com"]) [])).1
  = Write ("{" +:+ quoted "results" +:+ ":[{" +:+ quoted "subject" +:+ ":"
           +:+ quoted "Hi" +:+ "," +:+ quoted "count" +:+ ":2}]}").
Proof. by vm_compute. Qed.

(** C2, as stated, fails: with no row for bob@y.com the body is [{}],
    which has no "results" key, where a table with one such row gives
    [{"results":[...]}]. *)
Lemma empty_summary_has_no_results_key :
  let run := SummaryHandler parser0 "bob" (world_with [] []) in
  summary_rows "bob" "y.com" [] = [] ∧
  run.1 = {| Code := StatusOK; Body := "{}" |} ∧
  Body run.1 ≠ empty_results ∧
  Get 0 "bob" (cache run.2) = Some "{}" ∧
  Body (SummaryHandler parser0 "bob" (world_with (rows_from ["a@x.com"]) [])).1
  = "{" +:+ quoted "results" +:+ ":[{" +:+ quoted "subject" +:+ ":"
    +:+ quoted "Hi" +:+ "," +:+ quoted "count" +:+ ":1}]}".
Proof. by vm_compute. Qed.

(** C2, amended: when a lookup reaches the database, the query is
    served and no row matches, the handler answers 200 with the body
    [{}], an object without a "results" key, and stores that body in the
    cache under the localpart by the same call of [Set], with the default
    expiration, as for any other computed answer. *)
Theorem empty_summary_cached (p : RelayMsgParser) (k : string) (w : World) :
  Get (clock w) k (cache w) = None →
  ¬ lookup_fails p k w →
  Forall (λ r, smtp_to r ≠ k +:+ "@" +:+ Domain p) (table w) →
  (SummaryHandler p k w).1 = {| Code := StatusOK; Body := "{}" |} ∧
  (SummaryHandler p k w).2
  = (c_Set k "{}" DefaultExpiration (after_statement (SELECT (Schema p) k (Domain p)) w)).2.
Proof.
  intros Hmiss Hserved Hnone.
  rewrite (SummaryHandler_miss p k w Hmiss).
  rewrite lookup_fails_fault in Hserved. unfold query_fails in Hserved.
  rewrite (summary_rows_none k (Domain p) (table w) Hnone) in *.
  unfold computed.
  destruct (coming_fault (Dbh w)) as [[e | i e | i e]|]; simpl in *; try done.
Qed.

Lemma empty_summary_witness :
  let w := world_with (rows_from ["a@x.com"]) [] in
  (SummaryHandler parser0 "alice" w).1 = {| Code := StatusOK; Body := "{}" |} ∧
  (SummaryHandler parser0 "alice" w).2
  = (c_Set "alice" "{}" DefaultExpiration
       (after_statement (SELECT "request_dump" "alice" "y.com") w)).2.
Proof.
  apply (empty_summary_cached parser0 "alice" (world_with (rows_from ["a@x.com"]) [])).
  - by vm_compute.
  - rewrite lookup_fails_fault. by vm_compute.
  - repeat constructor. by vm_compute.
Defined.

(** Any computed answer is stored by that call of [Set]. *)
Lemma computed_answer_cached (p : RelayMsgParser) (k : string) (w : World) :
  Get (clock w) k (cache w) = None →
  Code (SummaryHandler p k w).1 = StatusOK →
  (SummaryHandler p k w).2
  = (c_Set k (Body (SummaryHandler p k w).1) DefaultExpiration
       (after_statement (SELECT (Schema p) k (Domain p)) w)).2.
Proof.
  intros Hmiss Hok. rewrite (SummaryHandler_miss p k w Hmiss) in *.
  by rewrite (computed_success _ _ _ _ _ Hok).
Qed.

(** * Further properties *)

(** ** Reasoning about a run of the extraction *)

Section ExtractionRuns.

Context `{Unmarshal}.
Implicit Types (p : RelayMsgParser) (w v : World) (j : string).

Lemma ParseEvent_decoded p j w (msg : RelayMessage) :
  FindStringIndex relayMsg j ≠ [] →
  decoded_message j = Some msg →
  ParseEvent p (Some j) w = StoreEvent p msg (log_line (arrow_line msg) w).
Proof.
  intros Hidx Hdec. unfold ParseEvent.
  destruct (decide _) as [Hno | _]; [by apply no_match_test in Hno |].
  unfold decoded_message in Hdec.
  destruct (Unmarshal_blob j) as [blob|]; [| done]. simpl in Hdec.
  destruct (blob !! "msys") as [msys|]; [| done]. simpl in Hdec.
  rewrite Hdec. rewrite run_bind, run_log_Printf. apply forward_error.
Qed.

Lemma ParseEvent_undecoded p j w :
  decoded_message j = None →
  ∃ line, ParseEvent p (Some j) w = (None, log_line line w).
Proof.
  intros Hdec. unfold ParseEvent.
  destruct (decide _) as [_ | _]; [by eexists |].
  unfold decoded_message in Hdec.
  destruct (Unmarshal_blob j) as [blob|]; [| by eexists]. simpl in Hdec.
  destruct (blob !! "msys") as [msys|]; [| by eexists]. simpl in Hdec.
  rewrite Hdec. by eexists.
Qed.

(** A property [P] that holds while the run goes on and a property [Q]
    of the world in which it ends with an error. *)
Section Outcome.
Context (P : World → Prop) (Q : error_value → World → Prop).
Context (P_log : ∀ line w, P w → P (log_line line w)).
Context (p : RelayMsgParser).
Context (P_store : ∀ msg w, P w →
           match StoreEvent p msg w with
           | (None, w') => P w'
           | (Some e, w') => Q e w'
           end).

Lemma ParseEvent_outcome (ev : option string) w :
  P w → outcome P Q (ParseEvent p ev w).
Proof.
  intros HP. destruct ev as [j|]; [| done].
  destruct (ParseEvent_cases p j w) as [(line & ->) | (msg & line & _ & ->)].
  - by apply P_log.
  - apply P_store. by apply P_log.
Qed.

Lemma range_events_outcome (es : list (option string)) w :
  P w → outcome P Q (range_events p es w).
Proof.
  revert w. induction es as [|ev es IH]; intros w HP; [done |].
  simpl. rewrite run_bind.
  pose proof (ParseEvent_outcome ev w HP) as Hev.
  destruct (ParseEvent p ev w) as [[e|] w']; [done |]. by apply IH.
Qed.

Lemma range_reqs_outcome (i : nat) (reqs : list Request) w :
  P w → outcome P Q (range_reqs p i reqs w).
Proof.
  revert i w. induction reqs as [|r reqs IH]; intros i w HP; [done |].
  simpl. destruct (Unmarshal_events (Data r)) as [evs|].
  - rewrite !run_bind, run_log_Printf, !run_bind.
    match goal with
    | |- context [range_events p evs ?w1] =>
        pose proof (range_events_outcome evs w1 (P_log _ w HP)) as Hevs;
        destruct (range_events p evs w1) as [[e|] w']; [done |]
    end.
    by apply IH.
  - rewrite !run_bind, run_log_Printf. apply IH. by apply P_log.
Qed.

Lemma ProcessRequests_outcome (reqs : list Request) w :
  P w → outcome P Q (ProcessRequests p reqs w).
Proof.
  intros HP. unfold ProcessRequests. rewrite run_bind, run_log_Printf.
  apply range_reqs_outcome. by apply P_log.
Qed.

End Outcome.

(** Two runs side by side, in worlds that a relation [R] ties; the log
    lines of the two may differ. *)
Section TwoRuns.
Context (R : World → World → Prop).
Context (R_log : ∀ line line' w v, R w v → R (log_line line w) (log_line line' v)).
Context (p : RelayMsgParser).
Context (R_store : ∀ msg w v, R w v →
           (StoreEvent p msg w).1 = (StoreEvent p msg v).1 ∧
           R (StoreEvent p msg w).2 (StoreEvent p msg v).2).

Lemma ParseEvent_alike (ev : option string) w v :
  R w v → alike R (ParseEvent p ev w) (ParseEvent p ev v).
Proof.
  intros HR. destruct ev as [j|]; [| by split].
  destruct (decide (FindStringIndex relayMsg j = [])) as [Hno | Hyes].
  { rewrite !ParseEvent_no_match by done. split; [done | by apply R_log]. }
  destruct (decoded_message j) as [msg|] eqn:Hdec.
  - rewrite !(ParseEvent_decoded p j _ msg Hyes Hdec). apply R_store. by apply R_log.
  - unfold ParseEvent.
    destruct (decide _) as [_ | _]; [split; [done | by apply R_log] |].
    unfold decoded_message in Hdec.
    destruct (Unmarshal_blob j) as [blob|]; [| split; [done | by apply R_log]].
    simpl in Hdec.
    destruct (blob !! "msys") as [msys|]; [| split; [done | by apply R_log]].
    simpl in Hdec. rewrite Hdec. split; [done | by apply R_log].
Qed.

Lemma range_events_alike (es : list (option string)) w v :
  R w v → alike R (range_events p es w) (range_events p es v).
Proof.
  revert w v. induction es as [|ev es IH]; intros w v HR; [by split |].
  simpl. rewrite !run_bind.
  destruct (ParseEvent_alike ev w v HR) as [Hres HR'].
  destruct (ParseEvent p ev w) as [[e|] w'], (ParseEvent p ev v) as [[e'|] v'];
    simpl in *; try done.
  by apply IH.
Qed.

Lemma range_reqs_alike (i i' : nat) (reqs : list Request) w v :
  R w v → alike R (range_reqs p i reqs w) (range_reqs p i' reqs v).
Proof.
  revert i i' w v. induction reqs as [|r reqs IH]; intros i i' w v HR; [by split |].
  simpl. destruct (Unmarshal_events (Data r)) as [evs|].
  - rewrite !run_bind, !run_log_Printf, !run_bind.
    match goal with
    | |- alike R (let '(_, _) := range_events p evs ?w1 in _)
               (let '(_, _) := range_events p evs ?v1 in _) =>
        destruct (range_events_alike evs w1 v1) as [Hres HR'];
        [by apply R_log |];
        destruct (range_events p evs w1) as [[e|] w'],
                 (range_events p evs v1) as [[e'|] v']; simpl in *; try done
    end.
    by apply IH.
  - rewrite !run_bind, !run_log_Printf. apply IH. by apply R_log.
Qed.

Lemma ProcessRequests_alike (reqs : list Request) w v :
  R w v → alike R (ProcessRequests p reqs w) (ProcessRequests p reqs v).
Proof.
  intros HR. unfold ProcessRequests. rewrite !run_bind, !run_log_Printf.
  apply range_reqs_alike. by apply R_log.
Qed.

End TwoRuns.

End ExtractionRuns.

(** ** Further properties of the extraction *)

Lemma app_singleton_neq {A : Type} (l : list A) (x : A) : l ++ [x] ≠ l.
Proof.
  intros Heq. apply (f_equal length) in Heq. rewrite length_app in Heq. simpl in Heq. lia.
Qed.

Lemma StoreEvent_outcomes (p : RelayMsgParser) (msg : RelayMessage) (w : World) :
  suffix (exec_outcomes (Dbh (StoreEvent p msg w).2)) (exec_outcomes (Dbh w)).
Proof.
  destruct (decide (MaxMessageSize ≤ body_size msg)) as [Hbig | Hsmall].
  { by rewrite StoreEvent_oversized. }
  unfold StoreEvent. fold (body_size msg). rewrite decide_False by done.
  rewrite run_bind. unfold with_Dbh, db_Exec_INSERT.
  destruct (exec_outcomes (Dbh w)) as [|[e|] rest]; simpl; try done;
    by apply suffix_cons_r.
Qed.



(** X2: [ParseEvent] reaches the database for an event exactly when the
    text of the event has the shape [relayMsg] recognises, the event
    decodes, the blob holds a message under "msys" and "relay_message",
    and the body of that message is shorter than 8192 bytes. In every
    other case (no match, a decoding error, a missing key, a body at the
    limit) the database is as it was. *)
Theorem ParseEvent_reaches_database `{Unmarshal} (p : RelayMsgParser)
    (j : string) (w : World) :
  Dbh (ParseEvent p (Some j) w).2 ≠ Dbh w ↔
  relay_shape j ∧ ∃ msg, decoded_message j = Some msg ∧ body_size msg < MaxMessageSize.
Proof.
  rewrite <- relayMsg_shape.
  destruct (decide (FindStringIndex relayMsg j = [])) as [Hno | Hyes].
  { rewrite ParseEvent_no_match by done. simpl. split; [done | by intros [? _]]. }
  destruct (decoded_message j) as [msg|] eqn:Hdec.
  - rewrite (ParseEvent_decoded p j w msg Hyes Hdec).
    destruct (decide (MaxMessageSize ≤ body_size msg)) as [Hbig | Hsmall].
    + rewrite StoreEvent_oversized by done. simpl.
      split; [done |]. intros (_ & msg' & [= <-] & Hlt). lia.
    + split.
      * intros _. split; [done |]. exists msg. split; [done | lia].
      * intros _ Heq. apply (f_equal statements) in Heq.
        destruct (exec_outcomes (Dbh w)) as [|[c|] rest] eqn:Hex.
        -- destruct (StoreEvent_served p msg (log_line (arrow_line msg) w))
             as (v' & Hst & _ & Hstmt & _); [lia | by simpl; rewrite Hex |].
           rewrite Hst in Heq. simpl in Heq. rewrite Hstmt in Heq.
           by apply app_singleton_neq in Heq.
        -- destruct (StoreEvent_refused p msg (log_line (arrow_line msg) w) c rest)
             as (v' & Hst & _ & Hstmt & _); [lia | done |].
           rewrite Hst in Heq. simpl in Heq. rewrite Hstmt in Heq.
           by apply app_singleton_neq in Heq.
        -- destruct (StoreEvent_served p msg (log_line (arrow_line msg) w))
             as (v' & Hst & _ & Hstmt & _); [lia | by simpl; rewrite Hex |].
           rewrite Hst in Heq. simpl in Heq. rewrite Hstmt in Heq.
           by apply app_singleton_neq in Heq.
  - destruct (ParseEvent_undecoded p j w Hdec) as (line & ->). simpl.
    split; [done |]. by intros (_ & msg & ? & _).
Qed.

(** X3: [ProcessRequests] only appends to the table and only sends
    INSERTs into the schema of [p]; it leaves the cache and the clock
    alone. When it returns nil, or the size error, every INSERT it sent
    stored one row; when it returns the error of an INSERT, every INSERT
    but that last one did. *)
Theorem ProcessRequests_appends `{Unmarshal} (p : RelayMsgParser)
    (reqs : list Request) (w : World) :
  let run := ProcessRequests p reqs w in
  ∃ rows, inserted p w rows
            (match run.1 with
             | Some (StoreEvent_INSERT _) => S (length rows)
             | _ => length rows
             end) run.2.
Proof.
  pose (P := λ v : World, ∃ rows, inserted p w rows (length rows) v).
  pose (Q := λ (e : error_value) (v : World),
          ∃ rows, inserted p w rows
                    (match e with
                     | StoreEvent_INSERT _ => S (length rows)
                     | StoreEvent_size _ _ => length rows
                     end) v).
  assert (Hout : outcome P Q (ProcessRequests p reqs w)).
  { apply ProcessRequests_outcome.
    - intros line v (rows & Ht & Hs & Hc & Hk). by exists rows.
    - intros msg v (rows & Ht & Hs & Hc & Hk).
      destruct (decide (MaxMessageSize ≤ body_size msg)) as [Hbig | Hsmall].
      { rewrite StoreEvent_oversized by done. by exists rows. }
      destruct (exec_outcomes (Dbh v)) as [|[c|] rest] eqn:Hex.
      + destruct (StoreEvent_served p msg v)
          as (v' & -> & Ht' & Hs' & Hc' & Hk' & _); [lia | by rewrite Hex |].
        eexists (rows ++ [_]). unfold inserted.
        rewrite Ht', Ht, Hs', Hs, Hc', Hk', length_app, Nat.add_1_r, replicate_S_end.
        by rewrite !app_assoc.
      + destruct (StoreEvent_refused p msg v c rest)
          as (v' & -> & Ht' & Hs' & Hc' & Hk' & _); [lia | done |].
        exists rows. unfold inserted.
        rewrite Ht', Ht, Hs', Hs, Hc', Hk', replicate_S_end.
        by rewrite !app_assoc.
      + destruct (StoreEvent_served p msg v)
          as (v' & -> & Ht' & Hs' & Hc' & Hk' & _); [lia | by rewrite Hex |].
        eexists (rows ++ [_]). unfold inserted.
        rewrite Ht', Ht, Hs', Hs, Hc', Hk', length_app, Nat.add_1_r, replicate_S_end.
        by rewrite !app_assoc.
    - exists []. unfold inserted. by rewrite !app_nil_r. }
  simpl. destruct (ProcessRequests p reqs w) as [[[from size | c]|] v]; exact Hout.
Qed.

(** What [StoreEvent] does with a body below the limit, read off the
    outcome the database holds for the INSERT. *)
Lemma StoreEvent_small_effect (p : RelayMsgParser) (msg : RelayMessage) (w : World) :
  body_size msg < MaxMessageSize →
  let refused := coming_refusal (Dbh w) in
  (StoreEvent p msg w).1 = StoreEvent_INSERT <$> refused ∧
  table (StoreEvent p msg w).2
  = table w ++ match refused with
               | Some _ => []
               | None => [row_of (next_message_id (Dbh w)) (clock w) msg]
               end ∧
  exec_outcomes (Dbh (StoreEvent p msg w).2) = tail (exec_outcomes (Dbh w)).
Proof.
  intros Hsmall. unfold StoreEvent. fold (body_size msg).
  rewrite decide_False by lia.
  rewrite run_bind. unfold with_Dbh, db_Exec_INSERT, table, coming_refusal.
  destruct (exec_outcomes (Dbh w)) as [|[e|] rest]; simpl; by rewrite ?app_nil_r.
Qed.

(** Two runs over the same requests, against databases that hold the
    same outcomes for the coming INSERTs, return the same and append
    rows with the same contents, whatever the tables held before. *)
Lemma ProcessRequests_same_contents `{Unmarshal} (p : RelayMsgParser)
    (reqs : list Request) (w v : World) :
  exec_outcomes (Dbh w) = exec_outcomes (Dbh v) →
  let run := ProcessRequests p reqs w in
  let run' := ProcessRequests p reqs v in
  run.1 = run'.1 ∧
  exec_outcomes (Dbh run.2) = exec_outcomes (Dbh run'.2) ∧
  ∃ added, content <$> table run.2 = (content <$> table w) ++ added ∧
           content <$> table run'.2 = (content <$> table v) ++ added.
Proof.
  intros Hex.
  pose (R := λ a b : World,
          exec_outcomes (Dbh a) = exec_outcomes (Dbh b) ∧
          ∃ added, content <$> table a = (content <$> table w) ++ added ∧
                   content <$> table b = (content <$> table v) ++ added).
  assert (Hrun : alike R (ProcessRequests p reqs w) (ProcessRequests p reqs v)).
  { apply ProcessRequests_alike.
    - intros line line' a b HR. exact HR.
    - intros msg a b (Hab & added & Ha & Hb).
      destruct (decide (MaxMessageSize ≤ body_size msg)) as [Hbig | Hsmall].
      { rewrite !StoreEvent_oversized by done. split; [done |]. split; [done |]. by exists added. }
      destruct (StoreEvent_small_effect p msg a) as (Hra & Hta & Hea); [lia |].
      destruct (StoreEvent_small_effect p msg b) as (Hrb & Htb & Heb); [lia |].
      unfold coming_refusal in *. rewrite <- Hab in Hrb, Htb, Heb.
      split; [congruence |]. split; [congruence |].
      exists (added ++ (content <$> match default None (head (exec_outcomes (Dbh a))) with
                                    | Some _ => []
                                    | None => [row_of 0 0 msg]
                                    end)).
      rewrite Hta, Htb, !fmap_app, Ha, Hb, !app_assoc.
      by destruct (default None (head (exec_outcomes (Dbh a)))).
    - split; [done |]. exists []. by rewrite !app_nil_r. }
  destruct Hrun as (Hres & Hexec & added & Ha & Hb).
  simpl. split; [done |]. split; [done |]. by exists added.
Qed.

(** X4: there is no deduplication. With a database that serves every
    INSERT, processing the requests of a batch a second time returns what
    the first run returned and appends rows with the same contents once
    more. *)
Theorem replay_stores_again `{Unmarshal} (p : RelayMsgParser)
    (reqs : list Request) (w : World) :
  exec_outcomes (Dbh w) = [] →
  let first := ProcessRequests p reqs w in
  let second := ProcessRequests p reqs first.2 in
  second.1 = first.1 ∧
  ∃ added, content <$> table first.2 = (content <$> table w) ++ added ∧
           content <$> table second.2 = (content <$> table w) ++ added ++ added.
Proof.
  intros Hex. simpl.
  assert (Hafter : exec_outcomes (Dbh (ProcessRequests p reqs w).2) = []).
  { apply (ProcessRequests_preserves (λ v, exec_outcomes (Dbh v) = [])); [done | | done].
    intros p' msg v Hv. apply suffix_nil_inv. rewrite <- Hv. apply StoreEvent_outcomes. }
  destruct (ProcessRequests_same_contents p reqs w (ProcessRequests p reqs w).2)
    as (Hres & _ & added & Ha & Hb); [congruence |].
  split; [done |]. exists added. split; [done |].
  by rewrite Hb, Ha, app_assoc.
Qed.

Lemma replay_stores_again_witness :
  let w := world_of (fresh_db [] []) in
  let first := ProcessRequests (H := reference) parser0 [relay_request; relay_request] w in
  let second := ProcessRequests (H := reference) parser0 [relay_request; relay_request] first.2 in
  second.1 = first.1 ∧
  ∃ added, content <$> table first.2 = (content <$> table w) ++ added ∧
           content <$> table second.2 = (content <$> table w) ++ added ++ added.
Proof.
  apply (replay_stores_again (H := reference) parser0 [relay_request; relay_request]
           (world_of (fresh_db [] []))).
  reflexivity.
Defined.

(** The extraction reads the database and the clock, and nothing else of
    the world: not the log, not the cache, not the index of the request. *)
Lemma StoreEvent_reads_Dbh (p : RelayMsgParser) (msg : RelayMessage) (w v : World) :
  Dbh w = Dbh v ∧ clock w = clock v →
  (StoreEvent p msg w).1 = (StoreEvent p msg v).1 ∧
  Dbh (StoreEvent p msg w).2 = Dbh (StoreEvent p msg v).2 ∧
  clock (StoreEvent p msg w).2 = clock (StoreEvent p msg v).2.
Proof.
  intros [Hd Hc]. unfold StoreEvent.
  destruct (decide _) as [_ | _]; [done |].
  rewrite !run_bind. unfold with_Dbh. rewrite Hd, Hc.
  by destruct (db_Exec_INSERT _ _ _ _ _ _ _ _ _) as [[e|] d].
Qed.

(** X5: a batch may be cut in two. When [ProcessRequests] returns nil for
    the first requests, processing the rest in a second call returns, and
    leaves in the database, what one call over the whole batch does. *)
Theorem batch_split `{Unmarshal} (p : RelayMsgParser)
    (reqs1 reqs2 : list Request) (w : World) :
  (ProcessRequests p reqs1 w).1 = None →
  let whole := ProcessRequests p (reqs1 ++ reqs2) w in
  let rest := ProcessRequests p reqs2 (ProcessRequests p reqs1 w).2 in
  whole.1 = rest.1 ∧ Dbh whole.2 = Dbh rest.2.
Proof.
  intros Hfirst. simpl.
  pose (R := λ a b : World, Dbh a = Dbh b ∧ clock a = clock b).
  assert (R_log : ∀ line line' a b, R a b → R (log_line line a) (log_line line' b))
    by (by intros line line' a b HR).
  assert (R_store : ∀ msg a b, R a b →
            (StoreEvent p msg a).1 = (StoreEvent p msg b).1 ∧
            R (StoreEvent p msg a).2 (StoreEvent p msg b).2).
  { intros msg a b HR. destruct (StoreEvent_reads_Dbh p msg a b HR) as (? & ? & ?).
    by repeat split. }
  unfold ProcessRequests in *. rewrite !run_bind, !run_log_Printf in *.
  rewrite range_reqs_app. fold (called_line (reqs1 ++ reqs2)) (called_line reqs1) in *.
  set (a := log_line (called_line (reqs1 ++ reqs2)) w).
  set (b := log_line (called_line reqs1) w) in *.
  destruct (range_reqs_alike R R_log p R_store 0 0 reqs1 a b) as [Hres HR]; [done |].
  destruct (range_reqs p 0 reqs1 b) as [ob wb]. simpl in Hfirst. subst ob.
  destruct (range_reqs p 0 reqs1 a) as [[e|] wa]; [done |]. simpl in HR.
  destruct (range_reqs_alike R R_log p R_store (0 + length reqs1) 0 reqs2 wa
              (log_line (called_line reqs2) wb)) as [Hres2 [HD _]].
  { destruct HR. by split. }
  done.
Qed.

Lemma batch_split_witness :
  let w := world_of (fresh_db [] []) in
  let whole := ProcessRequests (H := reference) parser0
                 ([relay_request] ++ [other_event_request; relay_request]) w in
  let rest := ProcessRequests (H := reference) parser0 [other_event_request; relay_request]
                (ProcessRequests (H := reference) parser0 [relay_request] w).2 in
  whole.1 = rest.1 ∧ Dbh whole.2 = Dbh rest.2.
Proof.
  apply (batch_split (H := reference) parser0 [relay_request]
           [other_event_request; relay_request] (world_of (fresh_db [] []))).
  by vm_compute.
Defined.

(** ** Further properties of the handler *)

(** What a lookup does to the database: nothing on a hit, one SELECT
    otherwise; the table and the outcomes held for INSERTs stay. *)
Lemma SummaryHandler_database (p : RelayMsgParser) (k : string) (w : World) :
  let d' := Dbh (SummaryHandler p k w).2 in
  relay_messages d' = relay_messages (Dbh w) ∧
  exec_outcomes d' = exec_outcomes (Dbh w) ∧
  next_message_id d' = next_message_id (Dbh w) ∧
  statements d' = statements (Dbh w) ++
                  match Get (clock w) k (cache w) with
                  | Some _ => []
                  | None => [SELECT (Schema p) k (Domain p)]
                  end.
Proof.
  simpl. destruct (Get (clock w) k (cache w)) as [b|] eqn:Hget.
  - rewrite (SummaryHandler_hit p k w b Hget). simpl. by rewrite app_nil_r.
  - rewrite (SummaryHandler_miss p k w Hget). unfold computed.
    by destruct (coming_fault (Dbh w)) as [[e | i e | i e]|]; simpl;
      try case_bool_decide.
Qed.

(** X6: the handler only reads. A lookup never changes the table of
    messages; on a hit it sends nothing to the database, otherwise it
    sends one statement, the SELECT for its localpart and the domain of
    [p]; and it leaves the clock alone. *)
Theorem SummaryHandler_reads_only (p : RelayMsgParser) (k : string) (w : World) :
  let w' := (SummaryHandler p k w).2 in
  table w' = table w ∧
  clock w' = clock w ∧
  statements (Dbh w') = statements (Dbh w) ++
                        match Get (clock w) k (cache w) with
                        | Some _ => []
                        | None => [SELECT (Schema p) k (Domain p)]
                        end.
Proof.
  destruct (SummaryHandler_database p k w) as (Ht & _ & _ & Hs).
  simpl. split; [exact Ht |]. split; [| exact Hs].
  destruct (Get (clock w) k (cache w)) as [b|] eqn:Hget.
  - by rewrite (SummaryHandler_hit p k w b Hget).
  - rewrite (SummaryHandler_miss p k w Hget). unfold computed.
    by destruct (coming_fault (Dbh w)) as [[e | i e | i e]|]; simpl;
      try case_bool_decide.
Qed.

(** Whatever passes between two lookups, an entry of the cache is gone or
    is what it was. *)
Lemma idle_item (acts : list activity) (w : World) (k : string) :
  items (cache (idle acts w)) !! k = None ∨
  items (cache (idle acts w)) !! k = items (cache w) !! k.
Proof.
  revert w. induction acts as [|[d|] acts IH]; intros w; simpl;
    [by right | apply (IH (elapse d w)) |].
  destruct (IH (janitor w)) as [Hnone | Hsame]; [by left |].
  rewrite Hsame. simpl.
  destruct (filter _ (items (cache w)) !! k) as [it|] eqn:Hit; [| by left].
  apply map_lookup_filter_Some in Hit as [Hit _]. by right.
Qed.

(** X7: the cache expires. Once more than one second has passed since a
    computed answer was stored, a lookup of the same localpart misses,
    whether or not the janitor has swept, and sends the SELECT again. *)
Theorem expired_entry_recomputed (p : RelayMsgParser) (k : string) (w : World)
    (acts : list activity) :
  defaultExpiration (cache w) = 1 * Second →
  0 ≤ clock w →
  Get (clock w) k (cache w) = None →
  Code (SummaryHandler p k w).1 = StatusOK →
  1 * Second < duration acts →
  let w1 := idle acts (SummaryHandler p k w).2 in
  Get (clock w1) k (cache w1) = None ∧
  statements (Dbh (SummaryHandler p k w1).2)
  = statements (Dbh w1) ++ [SELECT (Schema p) k (Domain p)].
Proof.
  intros Httl Hclock Hmiss Hok Hdur. cbv zeta.
  assert (Hget : Get (clock (idle acts (SummaryHandler p k w).2)) k
                   (cache (idle acts (SummaryHandler p k w).2)) = None).
  { rewrite (SummaryHandler_miss p k w Hmiss) in *.
    rewrite (computed_success _ _ _ _ _ Hok). cbn [fst snd].
    set (b := summary_body _).
    set (w0 := (c_Set k b DefaultExpiration
                  (after_statement (SELECT (Schema p) k (Domain p)) w)).2).
    assert (Hit : items (cache w0) !! k
                  = Some {| Object := b; Expiration := clock w + 1 * Second |}).
    { unfold w0, c_Set, Set_. simpl. rewrite Httl. simpl. by rewrite lookup_insert_eq. }
    unfold Get. destruct (idle_item acts w0 k) as [-> | ->]; [done |].
    rewrite Hit. destruct (idle_world acts w0) as (_ & _ & -> & _).
    rewrite decide_True; [done |]. unfold expired. simpl.
    unfold Second, Millisecond in *. lia. }
  split; [exact Hget |].
  destruct (SummaryHandler_database p k (idle acts (SummaryHandler p k w).2))
    as (_ & _ & _ & Hs).
  by rewrite Hget in Hs.
Qed.

Lemma expired_entry_witness :
  let w := world_with (rows_from ["a@x.com"; "c@z.com"]) [] in
  let w1 := idle [Elapse (1 * Second + 1)] (SummaryHandler parser0 "bob" w).2 in
  Get (clock w1) "bob" (cache w1) = None ∧
  statements (Dbh (SummaryHandler parser0 "bob" w1).2)
  = statements (Dbh w1) ++ [SELECT "request_dump" "bob" "y.com"].
Proof.
  apply (expired_entry_recomputed parser0 "bob"
           (world_with (rows_from ["a@x.com"; "c@z.com"]) [])
           [Elapse (1 * Second + 1)]); by vm_compute.
Defined.

(** X8: the staleness of the cache. While an entry has not expired, a
    lookup answers with its bytes even though [ProcessRequests] has run
    in between and may have stored rows for that mailbox: the extraction
    never touches the cache. *)
Theorem cached_answer_survives_extraction `{Unmarshal} (p p' : RelayMsgParser)
    (k : string) (reqs : list Request) (acts : list activity) (it : Item) (w : World) :
  items (cache w) !! k = Some it →
  forward acts →
  clock w + duration acts ≤ Expiration it →
  let w1 := idle acts (ProcessRequests p' reqs w).2 in
  SummaryHandler p k w1 = (Write (Object it), log_line (hit_line k) w1).
Proof.
  intros Hit Hfwd Hexp. cbv zeta.
  assert (Hkeep : cache (ProcessRequests p' reqs w).2 = cache w ∧
                  clock (ProcessRequests p' reqs w).2 = clock w).
  { apply (ProcessRequests_preserves (λ v, cache v = cache w ∧ clock v = clock w)); [done | | done].
    intros p0 msg v [Hc Hk]. destruct (StoreEvent_table p0 msg v) as (_ & -> & -> & _). done. }
  destruct Hkeep as [Hc Hk].
  apply SummaryHandler_hit. unfold Get.
  rewrite (idle_keeps_item acts _ k it Hfwd); [| by rewrite Hc | rewrite Hk; auto].
  destruct (idle_world acts (ProcessRequests p' reqs w).2) as (_ & _ & -> & _).
  rewrite Hk. rewrite decide_False; [done |]. intros [_ Hlt]. lia.
Qed.

Lemma cached_answer_survives_witness :
  let w := (SummaryHandler parser0 "bob" (world_with (rows_from ["a@x.com"]) [])).2 in
  let it := {| Object := summary_body [("Hi", 1)]; Expiration := 1 * Second |} in
  let w1 := idle [Elapse (1 * Second)]
              (ProcessRequests (H := reference) parser0 [relay_request] w).2 in
  SummaryHandler parser0 "bob" w1 = (Write (Object it), log_line (hit_line "bob") w1).
Proof.
  apply (cached_answer_survives_extraction (H := reference) parser0 parser0 "bob"
           [relay_request] [Elapse (1 * Second)]
           {| Object := summary_body [("Hi", 1)]; Expiration := 1 * Second |}
           (SummaryHandler parser0 "bob" (world_with (rows_from ["a@x.com"]) [])).2).
  - by vm_compute.
  - repeat constructor. by vm_compute.
  - by vm_compute.
Defined.

(** X9: the cache is kept per localpart. A lookup of one localpart never
    adds, replaces or removes the entry of another. *)
Theorem lookup_keeps_other_entries (p : RelayMsgParser) (k k' : string) (w : World) :
  k ≠ k' →
  items (cache (SummaryHandler p k w).2) !! k' = items (cache w) !! k'.
Proof.
  intros Hne. destruct (Get (clock w) k (cache w)) as [b|] eqn:Hget.
  - by rewrite (SummaryHandler_hit p k w b Hget).
  - rewrite (SummaryHandler_miss p k w Hget). unfold computed.
    destruct (coming_fault (Dbh w)) as [[e | i e | i e]|]; simpl;
      try case_bool_decide; simpl; try done; by rewrite lookup_insert_ne.
Qed.

Lemma lookup_keeps_other_entries_witness :
  let w := (SummaryHandler parser0 "bob" (world_with (rows_from ["a@x.com"]) [])).2 in
  items (cache (SummaryHandler parser0 "alice" w).2) !! "bob" = items (cache w) !! "bob".
Proof.
  apply (lookup_keeps_other_entries parser0 "alice" "bob"
           (SummaryHandler parser0 "bob" (world_with (rows_from ["a@x.com"]) [])).2).
  done.
Defined.

(** X10: what the aggregate returns. The result has one entry per
    subject: [(s, n)] is an entry exactly when some row addressed to
    [localpart@domain] has the subject [s] and [n] is the number of
    distinct senders of the rows with that address and subject. *)
Theorem summary_rows_meaning (k domain : string) (rows : list MessageRecord) :
  let result := summary_rows k domain rows in
  NoDup result.*1 ∧
  ∀ s n, (s, n) ∈ result ↔
         (∃ r, r ∈ rows ∧ smtp_to r = mailbox k domain ∧ subject r = s) ∧
         ∃ senders, distinct_senders rows (mailbox k domain) s senders ∧
                    n = Z.of_nat (length senders).
Proof.
  simpl. unfold summary_rows. fold (mailbox k domain).
  set (hits := filter (λ r, smtp_to r = mailbox k domain) rows).
  assert (Hhits : ∀ r, r ∈ hits ↔ r ∈ rows ∧ smtp_to r = mailbox k domain).
  { intros r. unfold hits. rewrite list_elem_of_filter. tauto. }
  assert (Hsenders : ∀ s, distinct_senders rows (mailbox k domain) s
                            (remove_dups (smtp_from <$> filter (λ r, subject r = s) hits))).
  { intros s. split; [apply NoDup_remove_dups |]. intros x.
    rewrite elem_of_remove_dups, list_elem_of_fmap. split.
    - intros (r & -> & Hr). apply list_elem_of_filter in Hr as [Hs Hr].
      apply Hhits in Hr as [Hr Hto]. by exists r.
    - intros (r & Hr & Hto & Hs & Hx). exists r. split; [done |].
      apply list_elem_of_filter. split; [done |]. by apply Hhits. }
  split.
  - assert (Hfst : ∀ (f : string → Z) (l : list string), ((λ s, (s, f s)) <$> l).*1 = l).
    { intros f l. induction l as [|s l IH]; [done |]. csimpl. by rewrite IH. }
    rewrite (Hfst (λ s, Z.of_nat (length (remove_dups
                     (smtp_from <$> filter (λ r, subject r = s) hits))))).
    apply NoDup_remove_dups.
  - intros s n. rewrite list_elem_of_fmap. split.
    + intros (s' & [= -> ->] & Hs). apply elem_of_remove_dups, list_elem_of_fmap in Hs
        as (r & -> & Hr). apply Hhits in Hr as [Hr Hto].
      split; [by exists r |]. eexists. split; [apply Hsenders | done].
    + intros ((r & Hr & Hto & Hs) & senders & [Hnd Hmem] & ->).
      exists s. split.
      * f_equal. f_equal. apply Permutation_length, NoDup_Permutation;
          [done | apply NoDup_remove_dups |].
        intros x. destruct (Hsenders s) as [_ Hmem']. by rewrite Hmem', Hmem.
      * apply elem_of_remove_dups, list_elem_of_fmap. exists r.
        split; [done |]. by apply Hhits.
Qed.

(** ** SchemaInit *)

Lemma prefix_append (sub b : string) : String.prefix sub (sub +:+ b) = true.
Proof.
  induction sub as [|c sub IH]; [by destruct b |].
  rewrite append_cons. simpl. by destruct (ascii_dec c c).
Qed.

Lemma prefix_split (sub s : string) :
  String.prefix sub s = true → ∃ b, s = sub +:+ b.
Proof.
  revert s. induction sub as [|c sub IH]; intros s Hp; [by exists s |].
  destruct s as [|c' s]; [done |]. simpl in Hp.
  destruct (ascii_dec c c') as [<- | _]; [| done].
  destruct (IH s Hp) as [b ->]. by exists b.
Qed.

Lemma Index_from_unfold (s sub : string) (i : Z) :
  Index_from s sub i
  = if String.prefix sub s then i
    else match s with
         | EmptyString => -1
         | String _ s' => Index_from s' sub (i + 1)
         end.
Proof. by destruct s. Qed.

Lemma Index_from_found (s sub : string) (i : Z) :
  0 ≤ i →
  (0 ≤ Index_from s sub i ↔ ∃ a b, s = a +:+ sub +:+ b).
Proof.
  revert i. induction s as [|c s IH]; intros i Hi; rewrite Index_from_unfold.
  - destruct (String.prefix sub "") eqn:Hp.
    + split; [intros _ | intros _; lia].
      apply prefix_split in Hp as [b Hb]. by exists "", b.
    + split; [intros ?; lia |]. intros (a & b & Heq). symmetry in Heq.
      apply append_eq_nil in Heq as [-> Heq]. apply append_eq_nil in Heq as [-> ->].
      done.
  - destruct (String.prefix sub (String c s)) eqn:Hp.
    + split; [intros _ | intros _; lia].
      apply prefix_split in Hp as [b Hb]. by exists "", b.
    + rewrite IH by lia. split.
      * intros (a & b & ->). by exists (String c a), b.
      * intros (a & b & Heq). destruct a as [|c' a].
        -- rewrite append_nil_l in Heq. rewrite Heq, prefix_append in Hp. done.
        -- rewrite append_cons in Heq. injection Heq as -> ->. by exists a, b.
Qed.

Lemma strings_Index_found (s sub : string) :
  0 ≤ strings_Index s sub ↔ ∃ a b, s = a +:+ sub +:+ b.
Proof. by apply Index_from_found. Qed.

Section SchemaInitFacts.

Implicit Types (schema : string) (cat : Catalog).

Lemma SchemaInit_effective schema cat :
  SchemaInit schema cat = SchemaInit (effective schema) cat.
Proof.
  unfold SchemaInit, effective. destruct (decide (schema = "")) as [-> | Hne]; [done |].
  by rewrite (decide_False (P := schema = "")).
Qed.

(** The lookups of a schema that has the table, on a server that serves
    them. *)
Lemma SchemaInit_present schema cat :
  ¬ has_space (effective schema) →
  answers cat = [] →
  effective schema ∈ schemata cat →
  relay_table (effective schema) ∈ tables cat →
  SchemaInit schema cat
  = (None,
     {| schemata := schemata cat; tables := tables cat; indexes := indexes cat;
        answers := []; calls := calls cat ++ lookups (effective schema) |},
     []).
Proof.
  intros Hsp Hans Hschema Htable. rewrite SchemaInit_effective.
  set (s := effective schema) in *.
  assert (Hs : effective s = s).
  { unfold s, effective. destruct (decide (schema = "")) as [-> | Hne]; [done |].
    by rewrite decide_False. }
  unfold SchemaInit. fold (effective s). rewrite Hs.
  rewrite decide_False by (by rewrite strings_Index_found).
  unfold pg_SchemaExists, pg_TableExistsInSchema, receive. rewrite Hans. simpl.
  rewrite bool_decide_eq_true_2 by done.
  rewrite bool_decide_eq_true_2 by done.
  by rewrite <- app_assoc.
Qed.

End SchemaInitFacts.

(** What a call that returns nil has done: it found the schema and
    the table, or it found the schema without the table and created the
    table and the index. *)
Lemma SchemaInit_nil_inv (schema : string) (cat cat1 : Catalog) (lines : list string) :
  SchemaInit schema cat = (None, cat1, lines) →
  let s := effective schema in
  ¬ has_space s ∧ s ∈ schemata cat ∧ schemata cat1 = schemata cat ∧
  relay_table s ∈ tables cat1 ∧
  ((relay_table s ∈ tables cat ∧ tables cat1 = tables cat ∧ indexes cat1 = indexes cat ∧
    calls cat1 = calls cat ++ lookups s ∧ answers cat1 = drop 2 (answers cat) ∧ lines = []) ∨
   ((relay_table s ∉ tables cat) ∧ (relay_index s ∉ indexes cat) ∧
    tables cat1 = {[ relay_table s ]} ∪ tables cat ∧
    indexes cat1 = {[ relay_index s ]} ∪ indexes cat ∧
    calls cat1 = calls cat ++ lookups s ++ creation s ∧
    answers cat1 = drop 4 (answers cat) ∧ length lines = 1%nat)).
Proof.
  unfold SchemaInit. fold (effective schema). set (s := effective schema). simpl.
  destruct (decide (0 ≤ strings_Index s " ")) as [? | Hsp]; [done |].
  rewrite strings_Index_found in Hsp. fold (has_space s) in Hsp.
  unfold pg_SchemaExists, receive.
  destruct (default None (head (answers cat))) as [e|] eqn:H1; [done |].
  case_bool_decide as Hs; [| done].
  unfold pg_TableExistsInSchema, receive. simpl.
  destruct (default None (head (tail (answers cat)))) as [e|] eqn:H2; [done |].
  case_bool_decide as Ht.
  - intros [= <- <-]. simpl. repeat split; try done. left.
    repeat split; try done.
    + by rewrite <- app_assoc.
    + by destruct (answers cat) as [|? [|? ?]].
  - unfold dbh_Exec, receive. simpl.
    destruct (default None (head (tail (tail (answers cat))))) as [e|] eqn:H3; [done |].
    unfold execute. simpl.
    rewrite bool_decide_eq_true_2 by done. simpl.
    case_bool_decide as Htaken; [done |]. simpl.
    destruct (default None (head (tail (tail (tail (answers cat)))))) as [e|] eqn:H4; [done |].
    rewrite bool_decide_eq_true_2 by (apply elem_of_union_l; by apply elem_of_singleton).
    simpl. case_bool_decide as Htaken'; [done |].
    intros [= <- <-]. simpl.
    assert (Hidx : relay_index s ∉ indexes cat) by tauto.
    split; [done |]. split; [done |]. split; [done |].
    split; [apply elem_of_union_l; by apply elem_of_singleton |].
    right. repeat split; try done.
    + by rewrite <- !app_assoc.
    + by destruct (answers cat) as [|? [|? [|? [|? ?]]]].
Qed.

(** X11: a schema name that holds a space is refused before anything
    reaches the database: [SchemaInit] returns its error, the catalog and
    the record of calls are as they were, and nothing is logged. *)
Theorem SchemaInit_space (schema : string) (cat : Catalog) :
  has_space schema →
  SchemaInit schema cat = (Some space_in_schema, cat, []).
Proof.
  intros Hsp. unfold SchemaInit.
  destruct (decide (schema = "")) as [-> | _].
  { destruct Hsp as (a & b & Heq). symmetry in Heq.
    apply append_eq_nil in Heq as [_ Heq]. by rewrite append_cons in Heq. }
  rewrite decide_True; [done |]. by apply strings_Index_found.
Qed.

Lemma SchemaInit_space_witness :
  SchemaInit "my schema" (catalog0 ["my schema"] []) =
  (Some space_in_schema, catalog0 ["my schema"] [], []).
Proof.
  apply (SchemaInit_space "my schema" (catalog0 ["my schema"] [])).
  by exists "my", "schema".
Defined.

(** X12: when the schema, request_dump if none is given, has no space and
    the server answers that it does not exist, [SchemaInit] returns the
    error that names that schema after this one lookup: no statement is
    sent and nothing is created. *)
Theorem SchemaInit_schema_missing (schema : string) (cat : Catalog) :
  ¬ has_space (effective schema) →
  default None (head (answers cat)) = None →
  effective schema ∉ schemata cat →
  SchemaInit schema cat
  = (Some (schema_missing (effective schema)),
     {| schemata := schemata cat; tables := tables cat; indexes := indexes cat;
        answers := tail (answers cat);
        calls := calls cat ++ [SchemaExists (effective schema)] |},
     []).
Proof.
  intros Hsp Hserved Hmissing. unfold SchemaInit. fold (effective schema).
  rewrite decide_False by (by rewrite strings_Index_found).
  unfold pg_SchemaExists, receive. rewrite Hserved.
  by rewrite bool_decide_eq_false_2.
Qed.

Lemma SchemaInit_schema_missing_witness :
  SchemaInit "" (catalog0 ["other"] [])
  = (Some (schema_missing "request_dump"),
     {| schemata := {["other"]} ∪ ∅; tables := ∅; indexes := ∅; answers := [];
        calls := [SchemaExists "request_dump"] |},
     []).
Proof.
  apply (SchemaInit_schema_missing "" (catalog0 ["other"] [])).
  - intros Hsp. by apply strings_Index_found in Hsp.
  - done.
  - by vm_compute.
Defined.

(** X13: when [SchemaInit] returns nil the table relay_messages is in the
    schema. If it was there before, nothing was created and the only
    calls were the two lookups; if not, the table and its index were
    created by the two statements, sent after the lookups. *)
Theorem SchemaInit_ensures (schema : string) (cat cat1 : Catalog) (lines : list string) :
  SchemaInit schema cat = (None, cat1, lines) →
  let s := effective schema in
  relay_table s ∈ tables cat1 ∧
  if decide (relay_table s ∈ tables cat)
  then tables cat1 = tables cat ∧ indexes cat1 = indexes cat ∧
       calls cat1 = calls cat ++ lookups s
  else relay_index s ∈ indexes cat1 ∧
       calls cat1 = calls cat ++ lookups s ++ creation s.
Proof.
  intros Hrun. destruct (SchemaInit_nil_inv schema cat cat1 lines Hrun)
    as (_ & _ & _ & Hin & [(Hold & Ht & Hi & Hc & _) | (Hnew & _ & Ht & Hi & Hc & _)]).
  - simpl. split; [done |]. by rewrite decide_True.
  - simpl. split; [done |]. rewrite decide_False by done.
    split; [| done]. rewrite Hi. apply elem_of_union_l. by apply elem_of_singleton.
Qed.

Lemma SchemaInit_ensures_witness :
  let run := SchemaInit "" (catalog0 ["request_dump"] []) in
  relay_table "request_dump" ∈ tables run.1.2 ∧
  relay_index "request_dump" ∈ indexes run.1.2 ∧
  calls run.1.2 = lookups "request_dump" ++ creation "request_dump".
Proof.
  pose proof (SchemaInit_ensures "" (catalog0 ["request_dump"] [])
                (SchemaInit "" (catalog0 ["request_dump"] [])).1.2
                (SchemaInit "" (catalog0 ["request_dump"] [])).2) as Hens.
  simpl in Hens. rewrite decide_False in Hens by (by vm_compute).
  apply Hens. by vm_compute.
Defined.

(** X14: [SchemaInit] is idempotent. After a call that returned nil, a
    second call on a server that serves its lookups returns nil, logs
    nothing and sends no statement: the catalog keeps its schemas, tables
    and indexes. *)
Theorem SchemaInit_again (schema : string) (cat cat1 : Catalog) (lines : list string) :
  SchemaInit schema cat = (None, cat1, lines) →
  answers cat1 = [] →
  SchemaInit schema cat1
  = (None,
     {| schemata := schemata cat1; tables := tables cat1; indexes := indexes cat1;
        answers := []; calls := calls cat1 ++ lookups (effective schema) |},
     []).
Proof.
  intros Hrun Hans. destruct (SchemaInit_nil_inv schema cat cat1 lines Hrun)
    as (Hsp & Hs & Hsch & Hin & _).
  apply SchemaInit_present; [done | done | by rewrite Hsch | done].
Qed.

Lemma SchemaInit_again_witness :
  let cat1 := (SchemaInit "" (catalog0 ["request_dump"] [])).1.2 in
  SchemaInit "" cat1
  = (None,
     {| schemata := schemata cat1; tables := tables cat1; indexes := indexes cat1;
        answers := []; calls := calls cat1 ++ lookups "request_dump" |},
     []).
Proof.
  apply (SchemaInit_again "" (catalog0 ["request_dump"] [])
           (SchemaInit "" (catalog0 ["request_dump"] [])).1.2
           (SchemaInit "" (catalog0 ["request_dump"] [])).2); by vm_compute.
Defined.

(** X15: a failure of the second statement is not repaired. When the
    table is created and the server then refuses CREATE INDEX,
    [SchemaInit] returns the wrapped error and leaves the table without
    its index; a later call finds the table, returns nil and sends no
    statement, so the index is still missing. *)
Theorem SchemaInit_index_not_repaired (schema e : string) (cat : Catalog) :
  let s := effective schema in
  ¬ has_space s →
  s ∈ schemata cat →
  relay_table s ∉ tables cat →
  relay_table s ∉ indexes cat →
  relay_index s ∉ indexes cat →
  answers cat = [None; None; None; Some e] →
  let first := SchemaInit schema cat in
  let second := SchemaInit schema first.1.2 in
  first.1.1 = Some (from_ddl e) ∧
  relay_table s ∈ tables first.1.2 ∧
  second.1.1 = None ∧
  calls second.1.2 = calls first.1.2 ++ lookups s ∧
  relay_index s ∉ indexes second.1.2.
Proof.
  intros s Hsp Hs Ht Hti Hi Hans. cbv zeta.
  assert (Hfirst : SchemaInit schema cat
          = (Some (from_ddl e),
             {| schemata := schemata cat; tables := {[ relay_table s ]} ∪ tables cat;
                indexes := indexes cat; answers := [];
                calls := calls cat ++ lookups s ++ creation s |},
             ["SchemaInit: creating table [" +:+ s +:+ ".relay_messages]" +:+ newline])).
  { unfold SchemaInit. fold (effective schema). fold s.
    rewrite decide_False by (by rewrite strings_Index_found).
    unfold pg_SchemaExists, pg_TableExistsInSchema, receive. rewrite Hans. simpl.
    rewrite bool_decide_eq_true_2 by done.
    rewrite bool_decide_eq_false_2 by done.
    unfold dbh_Exec, receive. simpl. unfold execute. simpl.
    rewrite bool_decide_eq_true_2 by done. simpl.
    rewrite bool_decide_eq_false_2 by (unfold relay_table in *; tauto). simpl.
    by rewrite <- !app_assoc. }
  rewrite Hfirst. simpl.
  assert (Hin : relay_table s ∈ {[ relay_table s ]} ∪ tables cat)
    by (apply elem_of_union_l; by apply elem_of_singleton).
  split; [done |]. split; [done |].
  rewrite SchemaInit_present; simpl; done.
Qed.

Lemma SchemaInit_index_witness :
  let cat := catalog0 ["request_dump"] [None; None; None; Some "out of disk"] in
  let first := SchemaInit "" cat in
  let second := SchemaInit "" first.1.2 in
  first.1.1 = Some (from_ddl "out of disk") ∧
  relay_table "request_dump" ∈ tables first.1.2 ∧
  second.1.1 = None ∧
  calls second.1.2 = calls first.1.2 ++ lookups "request_dump" ∧
  relay_index "request_dump" ∉ indexes second.1.2.
Proof.
  apply (SchemaInit_index_not_repaired "" "out of disk"
           (catalog0 ["request_dump"] [None; None; None; Some "out of disk"]));
    try (by vm_compute).
  intros Hsp. by apply strings_Index_found in Hsp.
Defined.

(** ** The configuration *)

Lemma all_bytes_all (c : ascii) : c ∈ all_bytes.
Proof.
  unfold all_bytes. apply list_elem_of_fmap. exists (nat_of_ascii c).
  split; [by rewrite ascii_nat_embedding |].
  apply elem_of_seq. pose proof (nat_ascii_bounded c). lia.
Qed.

Lemma MatchString_matches (r : regexp) (s : string) :
  MatchString r s = true ↔ matches r s.
Proof.
  revert r. induction s as [|c s IH]; intros r; simpl.
  - apply RegexpFacts.nullable_matches.
  - rewrite IH. apply RegexpFacts.deriv_matches.
Qed.

Lemma matches_one_of (cs : list ascii) (s : string) :
  matches (one_of cs) s ↔ ∃ c, c ∈ cs ∧ s = String c "".
Proof.
  induction cs as [|c cs IH]; simpl.
  - split; [inversion 1 | by intros (c & Hc & _); apply not_elem_of_nil in Hc].
  - split.
    + inversion 1 as [ | | | | ? ? ? Hl | ? ? ? Hr | | ]; subst.
      * inversion Hl; subst. exists c. split; [left | done].
      * apply IH in Hr as (c' & Hc' & ->). exists c'. split; [by right | done].
    + intros (c' & Hc' & ->). apply elem_of_cons in Hc' as [-> | Hc'].
      * apply m_alt_l. constructor.
      * apply m_alt_r, IH. by exists c'.
Qed.

Lemma matches_class (f : ascii → bool) (s : string) :
  matches (class f) s ↔ ∃ c, f c = true ∧ s = String c "".
Proof.
  unfold class. rewrite matches_one_of. split.
  - intros (c & Hc & ->). apply list_elem_of_filter in Hc as [Hf _]. by exists c.
  - intros (c & Hf & ->). exists c. split; [| done].
    apply list_elem_of_filter. split; [done | apply all_bytes_all].
Qed.

Lemma matches_star_class (f : ascii → bool) (s : string) :
  matches (Star (class f)) s ↔ all_of f s = true.
Proof.
  split.
  - intros Hm. remember (Star (class f)) as r eqn:Hr.
    induction Hm as [ | | | | | | | r' s1 s2 H1 _ H2 IH2 ]; try discriminate; [done |].
    injection Hr as ->. apply matches_class in H1 as (c & Hf & ->).
    rewrite append_cons, append_nil_l. simpl. rewrite Hf. by apply IH2.
  - induction s as [|c s IH]; simpl; intros Hs; [constructor |].
    apply andb_prop in Hs as [Hc Hs].
    change (String c s) with (String c "" +:+ s).
    constructor; [apply matches_class; by exists c | auto].
Qed.

Lemma MatchString_class (f : ascii → bool) (s : string) :
  MatchString (Star (class f)) s = all_of f s.
Proof.
  apply eq_true_iff_eq. by rewrite MatchString_matches, matches_star_class.
Qed.

(** X16: what the three patterns of the configuration accept. [digits]
    matches the strings made of the bytes 0 to 9, [word] those made of
    letters, digits and the underscore, [nows] those without a space, tab,
    line feed, form feed or carriage return; each accepts the empty
    string, so a variable that is not set always passes. *)
Theorem patterns_accept (s : string) :
  MatchString digits s = all_of is_d s ∧
  MatchString word s = all_of is_w s ∧
  MatchString nows s = all_of is_S s ∧
  MatchString digits "" = true ∧ MatchString word "" = true ∧ MatchString nows "" = true.
Proof.
  repeat split; try apply MatchString_class; reflexivity.
Qed.

Lemma at_key_insert (cfg : gmap string string) (k v : string) :
  at_key (<[k := v]> cfg) k = v.
Proof. unfold at_key. by rewrite lookup_insert_eq. Qed.

Lemma range_envVars_run (order : list (string * regexp)) (getenv : string → string)
    (cfg0 : gmap string string) :
  match range_envVars order getenv cfg0 with
  | inr cfg =>
      (∀ k v, (k, v) ∈ order → accepted_by v (getenv k) ∧ cfg !! k = Some (getenv k)) ∧
      (∀ k, cfg0 !! k = Some (getenv k) → cfg !! k = Some (getenv k)) ∧
      (∀ k, k ∉ order.*1 → cfg !! k = cfg0 !! k)
  | inl f => ∃ k v, f = Unsupported k ∧ (k, v) ∈ order ∧ ¬ accepted_by v (getenv k)
  end.
Proof.
  revert cfg0. induction order as [|[k v] order IH]; intros cfg0; simpl.
  { split; [by intros k v Hin; apply not_elem_of_nil in Hin |]. done. }
  rewrite at_key_insert.
  destruct (MatchString v (getenv k)) eqn:Hm.
  - specialize (IH (<[k := getenv k]> cfg0)).
    destruct (range_envVars order getenv _) as [f | cfg].
    + destruct IH as (k' & v' & -> & Hin & Hno). exists k', v'.
      split; [done |]. split; [by right | done].
    + destruct IH as (Hin & Hkeep & Hout). split; [| split].
      * intros k' v' Hkv. apply elem_of_cons in Hkv as [[= -> ->] | Hkv]; [| by apply Hin].
        split; [done |]. apply Hkeep. by rewrite lookup_insert_eq.
      * intros k' Hk'. apply Hkeep.
        destruct (decide (k = k')) as [-> | Hne];
          [by rewrite lookup_insert_eq | by rewrite lookup_insert_ne].
      * intros k' Hk'. apply not_elem_of_cons in Hk' as [Hne Hk'].
        rewrite Hout by done. by rewrite lookup_insert_ne.
  - exists k, v. split; [done |]. split; [left |].
    unfold accepted_by. by rewrite Hm.
Qed.

(** X17: the order in which [range] visits [envVars] does not decide
    whether [main] goes on. In any order, the loop ends without
    [log.Fatalf] exactly when every variable is accepted by its pattern,
    and then [cfg] holds the value of each; when it ends in
    [log.Fatalf], the variable it names is one that its pattern
    rejects. *)
Theorem validation_in_any_order (order : list (string * regexp))
    (getenv : string → string) :
  order ≡ₚ envVars →
  match range_envVars order getenv ∅ with
  | inr cfg =>
      (∀ k v, (k, v) ∈ envVars → accepted_by v (getenv k) ∧ cfg !! k = Some (getenv k)) ∧
      (∀ k, k ∉ envVars.*1 → cfg !! k = None)
  | inl f =>
      ∃ k v, f = Unsupported k ∧ (k, v) ∈ envVars ∧ ¬ accepted_by v (getenv k)
  end.
Proof.
  intros Hperm. pose proof (range_envVars_run order getenv ∅) as Hrun.
  destruct (range_envVars order getenv ∅) as [f | cfg].
  - destruct Hrun as (k & v & -> & Hin & Hno). exists k, v. by rewrite <- Hperm.
  - destruct Hrun as (Hin & _ & Hout). split.
    + intros k v Hkv. apply Hin. by rewrite Hperm.
    + intros k Hk. rewrite Hout; [done |]. by rewrite Hperm.
Qed.

Lemma validation_in_any_order_witness :
  match range_envVars (reverse envVars) (env_interval "15") ∅ with
  | inr cfg =>
      (∀ k v, (k, v) ∈ envVars →
              accepted_by v (env_interval "15" k) ∧ cfg !! k = Some (env_interval "15" k)) ∧
      (∀ k, k ∉ envVars.*1 → cfg !! k = None)
  | inl f =>
      ∃ k v, f = Unsupported k ∧ (k, v) ∈ envVars ∧ ¬ accepted_by v (env_interval "15" k)
  end.
Proof.
  apply (validation_in_any_order (reverse envVars) (env_interval "15")).
  apply reverse_Permutation.
Defined.

Lemma at_key_set_default (cfg : gmap string string) (k v k' : string) :
  at_key (set_default k v cfg) k'
  = if decide (k = k' ∧ at_key cfg k = "") then v else at_key cfg k'.
Proof.
  unfold set_default. destruct (decide (at_key cfg k = "")) as [He | Hne].
  - destruct (decide (k = k')) as [-> | Hkk'].
    + rewrite decide_True by done. apply at_key_insert.
    + rewrite decide_False by tauto. unfold at_key. by rewrite lookup_insert_ne.
  - by rewrite decide_False by tauto.
Qed.

Lemma decimal_nonneg (s : string) (acc n : Z) :
  decimal s acc = Some n → 0 ≤ acc → 0 ≤ n.
Proof.
  revert acc. induction s as [|c s IH]; intros acc; simpl.
  - intros [= <-]. done.
  - destruct (is_d c); [| done]. intros Hd Hacc. apply (IH _ Hd). lia.
Qed.

Lemma decimal_digits (s : string) (acc : Z) :
  all_of is_d s = true → is_Some (decimal s acc).
Proof.
  revert acc. induction s as [|c s IH]; intros acc; simpl; [by eexists |].
  intros Hs. apply andb_prop in Hs as [-> Hs]. by apply IH.
Qed.

Lemma Atoi_digits (s : string) :
  all_of is_d s = true → s ≠ "" →
  ∃ n, 0 ≤ n ∧ Atoi s = if decide (n ≤ maxInt64) then inl n else inr ErrRange.
Proof.
  intros Hs Hne. destruct s as [|c s]; [done |]. clear Hne.
  destruct (decimal_digits (String c s) 0 Hs) as [n Hn].
  exists n. split; [by eapply decimal_nonneg |].
  pose proof (decimal_nonneg _ _ _ Hn ltac:(done)) as Hpos.
  simpl in Hs. apply andb_prop in Hs as [Hc _].
  assert (Hsign : c ≠ "-"%char ∧ c ≠ "+"%char).
  { split; intros ->; by vm_compute in Hc. }
  unfold Atoi.
  replace (match String c s with
           | String "-" body => (true, body)
           | String "+" body => (false, body)
           | _ => (false, String c s)
           end) with (false, String c s).
  - rewrite Hn. unfold minInt64.
    destruct (decide (n ≤ maxInt64)).
    + rewrite decide_True; [done | lia].
    + rewrite decide_False; [done | lia].
  - destruct Hsign as [Hm Hp].
    destruct c as [[] [] [] [] [] [] [] []]; try done.
Qed.

Lemma wrap64_small (z : Z) : minInt64 ≤ z ≤ maxInt64 → wrap64 z = z.
Proof.
  unfold wrap64, minInt64, maxInt64. intros Hz.
  rewrite Z.mod_small by lia. lia.
Qed.

Lemma wrap64_range (z : Z) : minInt64 ≤ wrap64 z ≤ maxInt64.
Proof.
  unfold wrap64, minInt64, maxInt64.
  pose proof (Z.mod_pos_bound (z + 2 ^ 63) (2 ^ 64) ltac:(lia)). lia.
Qed.

(** X18: the period of the ticker. When [main] gets as far as the ticker,
    the batch interval is a number from 0 to 2^63 - 1, 10 when the
    variable is not set. From 1 to 9223372036 the period is that many
    seconds. The value 0, which the pattern accepts, gives a period of 0
    and [time.NewTicker] panics; above 9223372036 the product wraps
    around and the period is not the number of seconds asked for. *)
Theorem ticker_interval (order : list (string * regexp)) (getenv : string → string)
    (st : Settings) :
  order ≡ₚ envVars →
  settings order getenv = inr st →
  let n := batchInterval st in
  0 ≤ n ≤ maxInt64 ∧
  (getenv "RELAYMSG_BATCH_INTERVAL" = "" → n = 10) ∧
  (n = 0 → NewTicker_panics (interval st)) ∧
  (0 < n ≤ 9223372036 → interval st = n * Second ∧ ¬ NewTicker_panics (interval st)) ∧
  (9223372036 < n → interval st ≠ n * Second).
Proof.
  intros Hperm Hst. unfold settings in Hst.
  pose proof (range_envVars_run order getenv ∅) as Hrun.
  destruct (range_envVars order getenv ∅) as [f | cfg0]; [done |].
  destruct Hrun as (Hin & _ & _).
  destruct (Hin "RELAYMSG_BATCH_INTERVAL" digits) as [Hacc Hval].
  { rewrite Hperm. unfold envVars. repeat (first [left | right]). }
  unfold accepted_by, digits in Hacc. rewrite MatchString_class in Hacc.
  set (v := getenv "RELAYMSG_BATCH_INTERVAL") in *.
  assert (Harg : ∃ a, at_key (set_default "RELAYMSG_BATCH_INTERVAL" "10"
                                (set_default "PORT" "5000" cfg0))
                        "RELAYMSG_BATCH_INTERVAL" = a ∧
                      all_of is_d a = true ∧ a ≠ "" ∧ (v = "" → a = "10")).
  { eexists. split; [reflexivity |].
    rewrite !at_key_set_default.
    rewrite (decide_False (P := "PORT" = "RELAYMSG_BATCH_INTERVAL" ∧ _))
      by (by intros [? _]).
    assert (Hv : at_key cfg0 "RELAYMSG_BATCH_INTERVAL" = v) by (unfold at_key; by rewrite Hval).
    rewrite Hv. destruct (decide (v = "")) as [He | Hne].
    - rewrite decide_True by (by split). by repeat split.
    - rewrite decide_False by (by intros [_ ?]). by repeat split. }
  destruct Harg as (a & Harg & Hd & Hne & Hdef).
  rewrite Harg in Hst.
  destruct (Atoi_digits a Hd Hne) as (n & Hn & HA).
  assert (Hten : v = "" → Atoi a = inl 10) by (by intros He; rewrite (Hdef He)).
  rewrite HA in Hst, Hten.
  destruct (decide (n ≤ maxInt64)) as [Hmax | ?]; [| done].
  destruct (Atoi _) as [m | e] in Hst; [| done].
  injection Hst as <-. simpl.
  split; [done |]. split; [| split; [| split]].
  - intros He. specialize (Hten He). by injection Hten.
  - intros ->. by vm_compute.
  - intros Hn'. rewrite wrap64_small.
    + unfold NewTicker_panics, Second, Millisecond. split; lia.
    + unfold minInt64, maxInt64, Second, Millisecond. lia.
  - intros Hbig Heq. pose proof (wrap64_range (n * Second)) as Hr.
    rewrite Heq in Hr. unfold maxInt64, Second, Millisecond in Hr. lia.
Qed.

Lemma ticker_interval_witness :
  ∃ st, settings envVars (env_interval "0") = inr st ∧
        batchInterval st = 0 ∧ NewTicker_panics (interval st).
Proof.
  destruct (settings envVars (env_interval "0")) as [f | st] eqn:Hst.
  { by vm_compute in Hst. }
  exists st. split; [done |].
  destruct (ticker_interval envVars (env_interval "0") st (reflexivity _) Hst)
    as (_ & _ & Hzero & _).
  assert (Hn : batchInterval st = 0).
  { vm_compute in Hst. by injection Hst as <-. }
  split; [done | by apply Hzero].
Defined.

(** An interval of 9223372037 seconds wraps to a negative period, and one
    of 18446744074 seconds to a period of 290448384 nanoseconds. *)
Example intervals_that_wrap :
  (interval <$> sum_rect (λ _, option Settings) (λ _, None) Some
                  (settings envVars (env_interval "9223372037")))
  = Some (-9223372036709551616) ∧
  (interval <$> sum_rect (λ _, option Settings) (λ _, None) Some
                  (settings envVars (env_interval "18446744074")))
  = Some 290448384.
Proof. by vm_compute. Qed.


(** X19: the two answers of the handler. A lookup answers 200, or 500
    with the body "Database error" and a line feed, whatever the text of
    the error of the database, which goes to the log only; the encoding
    error is never reached. It answers 500 exactly when it misses the
    cache and the query, a scan or the iteration fails. *)
Theorem SummaryHandler_answers (p : RelayMsgParser) (k : string) (w : World) :
  let r := (SummaryHandler p k w).1 in
  (Code r = StatusOK ∨
   (Code r = StatusInternalServerError ∧ Body r = "Database error" +:+ newline)) ∧
  (Code r = StatusInternalServerError ↔
   Get (clock w) k (cache w) = None ∧ lookup_fails p k w).
Proof.
  simpl. destruct (Get (clock w) k (cache w)) as [b|] eqn:Hget.
  - rewrite (SummaryHandler_hit p k w b Hget). simpl.
    split; [by left |]. split; [done | by intros [? _]].
  - rewrite (SummaryHandler_miss p k w Hget), lookup_fails_fault.
    unfold query_fails, computed.
    destruct (coming_fault (Dbh w)) as [[e | i e | i e]|]; simpl;
      try case_bool_decide; simpl;
      (split; [first [by left | by right] | split; [done | by intros [_ ?]]]).
Qed.
